(** * Direction-optimizing BFS of kbit_bfs.cc

    A shallow embedding of [InitParent], [TDStep], [BUStep], the two
    frontier converters, the [DOBFS] controller, [BFSVerifier] and
    [PrintBFSStats].

    Conventions of the embedding:
    - vertex ids are [nat]; values of type [NodeId] stored in the parent
      array, and the 64-bit counters, are [Z];
    - [pvector<NodeId>] is a [list Z], a [Bitmap] a [list bool]; a read
      out of range yields [0] (parent, i.e. "visited", so never claimed),
      [false] (bitmap) or [-1] (verifier depth);
    - the OpenMP loops are modelled by their execution with one worker:
      iterations in index order, each reduction a running sum, each
      thread-local [QueueBuffer] appended in order;
    - a [SlidingQueue] is modelled by its current window: [slide_window]
      makes the elements pushed since the last slide the new window;
    - the source's unbounded loops take a fuel argument and return [None]
      when it runs out; the termination theorems show that the fuel given
      by [DOBFS] and [BFSVerifier] always suffices. *)

From Stdlib Require Import List Arith ZArith Lia Bool Permutation Sorted.
Import ListNotations.
Open Scope Z_scope.

(** ** Arrays *)

Fixpoint set_nth {A} (i : nat) (l : list A) (x : A) : list A :=
  match l, i with
  | [], _ => []
  | _ :: l', O => x :: l'
  | y :: l', S i' => y :: set_nth i' l' x
  end.

(** [parent[u]] *)
Definition pget (p : list Z) (u : nat) : Z := nth u p 0.

(** [bm.get_bit(u)] *)
Definition get_bit (bm : list bool) (u : nat) : bool := nth u bm false.

(** [bm.reset()] *)
Definition reset (bm : list bool) : list bool := repeat false (length bm).

(** ** The graph abstraction *)

(** Modelled from the spec: the graph type [My_Graph] and its macro
    [ITERATE_NEIGHBOURHOOD] (kbit_adjacency_array.h, not in the sources).
    The spec describes the graph as "a single enumerable-neighbors-of(vertex)
    operation" together with vertex count, per-vertex degree and directed
    edge count; a graph is therefore one adjacency list per vertex, which
    [ITERATE_NEIGHBOURHOOD(v, u, ...)] enumerates in order, [out_degree u]
    is its length and [num_edges_directed] the total.  An edge [u -> v] is
    [v] occurring in the list of [u]. *)
Definition Graph := list (list nat).

Definition num_nodes (g : Graph) : nat := length g.

Definition neigh (g : Graph) (u : nat) : list nat := nth u g [].

Definition out_degree (g : Graph) (u : nat) : Z := Z.of_nat (length (neigh g u)).

Definition num_edges_directed (g : Graph) : Z :=
  fold_right (fun l acc => Z.of_nat (length l) + acc) 0 g.

Definition edge (g : Graph) (u v : nat) : Prop := In v (neigh g u).

(** ** InitParent *)

Definition InitParent (g : Graph) : list Z :=
  map (fun n => if negb (out_degree g n =? 0) then - out_degree g n else -1)
      (seq 0 (num_nodes g)).

(** ** TDStep

    [lq] is the (flushed) local queue, [scout] the reduction variable. *)

Fixpoint td_neigh (u : nat) (vs : list nat) (parent : list Z)
    (lq : list nat) (scout : Z) : list Z * list nat * Z :=
  match vs with
  | [] => (parent, lq, scout)
  | v :: vs' =>
      let curr_val := pget parent v in
      if curr_val <? 0
      then td_neigh u vs' (set_nth v parent (Z.of_nat u)) (lq ++ [v])
             (scout + - curr_val)
      else td_neigh u vs' parent lq scout
  end.

Fixpoint td_queue (g : Graph) (q : list nat) (parent : list Z)
    (lq : list nat) (scout : Z) : list Z * list nat * Z :=
  match q with
  | [] => (parent, lq, scout)
  | u :: q' =>
      let '(parent', lq', scout') := td_neigh u (neigh g u) parent lq scout in
      td_queue g q' parent' lq' scout'
  end.

(** Returns the new parent array, the next window of the queue (after the
    caller's [queue.slide_window()]) and [scout_count]. *)
Definition TDStep (g : Graph) (parent : list Z) (queue : list nat)
    : list Z * list nat * Z :=
  td_queue g queue parent [] 0.

(** ** BUStep *)

(** The first neighbour whose bit is set in [front]: the [break]. *)
Fixpoint find_front (front : list bool) (vs : list nat) : option nat :=
  match vs with
  | [] => None
  | v :: vs' => if get_bit front v then Some v else find_front front vs'
  end.

Fixpoint bu_vertices (g : Graph) (front : list bool) (us : list nat)
    (parent : list Z) (next : list bool) (awake : Z)
    : list Z * list bool * Z :=
  match us with
  | [] => (parent, next, awake)
  | u :: us' =>
      if pget parent u <? 0 then
        match find_front front (neigh g u) with
        | Some v =>
            bu_vertices g front us' (set_nth u parent (Z.of_nat v))
              (set_nth u next true) (awake + 1)
        | None => bu_vertices g front us' parent next awake
        end
      else bu_vertices g front us' parent next awake
  end.

(** Returns the new parent array, the bitmap [next] and [awake_count]. *)
Definition BUStep (g : Graph) (parent : list Z) (front next : list bool)
    : list Z * list bool * Z :=
  bu_vertices g front (seq 0 (num_nodes g)) parent (reset next) 0.

(** ** Frontier converters *)

Definition QueueToBitmap (queue : list nat) (bm : list bool) : list bool :=
  fold_left (fun bm u => set_nth u bm true) queue bm.

(** The new window of [queue] after the final [slide_window()]. *)
Definition BitmapToQueue (g : Graph) (bm : list bool) : list nat :=
  filter (fun n => get_bit bm n) (seq 0 (num_nodes g)).

(** ** DOBFS *)

Record bfs_state := mkState {
  parent : list Z;
  queue : list nat;
  curr : list bool;
  front : list bool;
  edges_to_check : Z;
  scout_count : Z
}.

(** Loop condition of the bottom-up [do ... while]. *)
Definition bu_continue (g : Graph) (beta awake_count old_awake_count : Z) : bool :=
  (old_awake_count <=? awake_count)
  || (Z.of_nat (num_nodes g) ÷ beta <? awake_count).

(** The [do ... while] loop; the state is [(parent, front, curr, awake_count)]. *)
Fixpoint bu_loop (fuel : nat) (g : Graph) (beta : Z) (p : list Z)
    (front curr : list bool) (awake_count : Z)
    : option (list Z * list bool * list bool * Z) :=
  match fuel with
  | O => None
  | S fuel' =>
      let old_awake_count := awake_count in
      let '(p', curr', awake_count') := BUStep g p front curr in
      (* front.swap(curr) *)
      let front2 := curr' in
      let curr2 := front in
      if bu_continue g beta awake_count' old_awake_count
      then bu_loop fuel' g beta p' front2 curr2 awake_count'
      else Some (p', front2, curr2, awake_count')
  end.

(** One iteration of the [while (!queue.empty())] loop. *)
Definition dobfs_iter (g : Graph) (alpha beta : Z) (st : bfs_state)
    : option bfs_state :=
  if edges_to_check st ÷ alpha <? scout_count st then
    let front1 := QueueToBitmap (queue st) (front st) in
    let awake_count := Z.of_nat (length (queue st)) in
    match bu_loop (S (num_nodes g)) g beta (parent st) front1 (curr st)
            awake_count with
    | None => None
    | Some (p', front', curr', _) =>
        Some (mkState p' (BitmapToQueue g front') curr' front'
                (edges_to_check st) 1)
    end
  else
    let edges' := edges_to_check st - scout_count st in
    let '(p', q', scout') := TDStep g (parent st) (queue st) in
    Some (mkState p' q' (curr st) (front st) edges' scout').

Fixpoint dobfs_loop (fuel : nat) (g : Graph) (alpha beta : Z) (st : bfs_state)
    : option (list Z) :=
  match fuel with
  | O => None
  | S fuel' =>
      match queue st with
      | [] => Some (parent st)
      | _ :: _ =>
          match dobfs_iter g alpha beta st with
          | None => None
          | Some st' => dobfs_loop fuel' g alpha beta st'
          end
      end
  end.

Definition dobfs_init (g : Graph) (source : nat) : bfs_state :=
  let n := num_nodes g in
  mkState (set_nth source (InitParent g) (Z.of_nat source)) [source]
    (repeat false n) (repeat false n) (num_edges_directed g)
    (out_degree g source).

Definition DOBFS (g : Graph) (source : nat) (alpha beta : Z) : option (list Z) :=
  dobfs_loop (S (S (num_nodes g))) g alpha beta (dobfs_init g source).

(** ** BFSVerifier *)

(** The serial BFS: [to_visit] from the iterator on is a FIFO [todo]. *)
Fixpoint bfs_neigh (du : Z) (vs : list nat) (depth : list Z) (todo : list nat)
    : list Z * list nat :=
  match vs with
  | [] => (depth, todo)
  | v :: vs' =>
      if nth v depth (-1) =? -1
      then bfs_neigh du vs' (set_nth v depth (du + 1)) (todo ++ [v])
      else bfs_neigh du vs' depth todo
  end.

Fixpoint bfs_loop (fuel : nat) (g : Graph) (depth : list Z) (todo : list nat)
    : list Z :=
  match fuel with
  | O => depth
  | S fuel' =>
      match todo with
      | [] => depth
      | u :: todo' =>
          let '(depth', todo'') := bfs_neigh (nth u depth (-1)) (neigh g u) depth todo' in
          bfs_loop fuel' g depth' todo''
      end
  end.

(** The depth array of [BFSVerifier]: [-1] for unreached vertices. *)
Definition bfs_depth (g : Graph) (source : nat) : list Z :=
  bfs_loop (num_nodes g) g (set_nth source (repeat (-1) (num_nodes g)) 0) [source].

(** The [ITERATE_NEIGHBOURHOOD] search for [parent[u]]:
    [Some ok] when found ([ok] = depth test passed), [None] when not found. *)
Fixpoint find_parent (depth : list Z) (du pu : Z) (vs : list nat) : option bool :=
  match vs with
  | [] => None
  | v :: vs' =>
      if Z.of_nat v =? pu
      then Some (nth v depth (-1) =? du - 1)
      else find_parent depth du pu vs'
  end.

Fixpoint verify_vertices (g : Graph) (source : nat) (parent depth : list Z)
    (us : list nat) : bool :=
  match us with
  | [] => true
  | u :: us' =>
      let du := nth u depth (-1) in
      let pu := pget parent u in
      if negb (du =? -1) && negb (pu =? -1) then
        if Nat.eqb u source then
          if (pu =? Z.of_nat u) && (du =? 0)
          then verify_vertices g source parent depth us'
          else false
        else
          match find_parent depth du pu (neigh g u) with
          | Some true => verify_vertices g source parent depth us'
          | _ => false
          end
      else if negb (du =? pu) then false
      else verify_vertices g source parent depth us'
  end.

Definition BFSVerifier (g : Graph) (source : nat) (parent : list Z) : bool :=
  verify_vertices g source parent (bfs_depth g source) (seq 0 (num_nodes g)).

(** ** PrintBFSStats *)

(** The two numbers [PrintBFSStats] prints, as the pair
    [(tree_size, n_edges)]: over [g.vertices()] in order, a vertex with a
    non-negative [bfs_tree] entry adds its out-degree to [n_edges] and one
    to [tree_size]. *)
Definition PrintBFSStats (g : Graph) (bfs_tree : list Z) : Z * Z :=
  fold_left
    (fun acc n =>
       let '(tree_size, n_edges) := acc in
       if 0 <=? pget bfs_tree n
       then (tree_size + 1, n_edges + out_degree g n)
       else (tree_size, n_edges))
    (seq 0 (num_nodes g)) (0, 0).

(** ** Walks *)

(** [walk g u w k]: [w] is reached from [u] along [k] edges of the
    neighbour lists. *)
Inductive walk (g : Graph) : nat -> nat -> nat -> Prop :=
| walk_nil u : walk g u u 0
| walk_cons u v w k : In v (neigh g u) -> walk g v w k -> walk g u w (S k).

(** ** Bottom-up phase and forest validity, as the spec words them *)

(** The bottom-up phase as the spec words it: one round is a [BUStep]
    followed by swapping the two bitmaps, and rounds repeat while
    [awake_count >= old_awake_count \/ awake_count > num_nodes / beta].
    The state is [(parent, front, curr, awake_count)]. *)
Inductive bu_dowhile (g : Graph) (beta : Z)
    : list Z * list bool * list bool * Z -> list Z * list bool * list bool * Z -> Prop :=
| bu_dowhile_stop p front curr aw p' next' aw' :
    BUStep g p front curr = (p', next', aw') ->
    ~ (aw <= aw' \/ Z.of_nat (num_nodes g) ÷ beta < aw') ->
    bu_dowhile g beta (p, front, curr, aw) (p', next', front, aw')
| bu_dowhile_more p front curr aw p' next' aw' r :
    BUStep g p front curr = (p', next', aw') ->
    (aw <= aw' \/ Z.of_nat (num_nodes g) ÷ beta < aw') ->
    bu_dowhile g beta (p', next', front, aw') r ->
    bu_dowhile g beta (p, front, curr, aw) r.

(** Symmetric neighbour lists: the graph is undirected. *)
Definition symmetric (g : Graph) : Prop :=
  forall u v, In v (neigh g u) -> In u (neigh g v).

(** Following the spec's words: [p] is a BFS spanning forest rooted at
    [source], with depths from the independent serial BFS ([bfs_depth]):
    the source is its own parent, every reached vertex has a non-negative
    entry, every reached [u <> source] has an edge [parent[u] -> u] with
    [depth(u) = depth(parent[u]) + 1], and every unreached vertex keeps its
    initial encoding. *)
Definition valid_bfs_forest (g : Graph) (source : nat) (p : list Z) : Prop :=
  let depth := fun v => nth v (bfs_depth g source) (-1) in
  pget p source = Z.of_nat source /\
  (forall u, (u < num_nodes g)%nat -> 0 <= depth u -> 0 <= pget p u) /\
  (forall u, (u < num_nodes g)%nat -> u <> source -> 0 <= depth u ->
     exists w, pget p u = Z.of_nat w /\ In u (neigh g w) /\ depth u = depth w + 1) /\
  (forall u, (u < num_nodes g)%nat -> depth u < 0 -> pget p u = pget (InitParent g) u).

(** ** Test graphs *)

(** An out-degree-0 vertex claimed by the top-down step. *)
Definition g_leaf : Graph := ([[1]; []])%nat.

(** Source [0] isolated; vertex [1] unreachable with out-degree 2. *)
Definition g_unreach : Graph := ([[]; [2; 3]; [1]; [1]])%nat.

(** The path [0 -> 1 -> 2 -> 3], one direction only. *)
Definition g_path_directed : Graph := ([[1]; [2]; [3]; []])%nat.

(** The same path with symmetric lists. *)
Definition g_path_undirected : Graph := ([[1]; [0; 2]; [1; 3]; [2]])%nat.

(** Edges [0 -> 1] and [2 -> 0] only. *)
Definition g_back : Graph := ([[1]; []; [0]])%nat.

(** * Lemmas on arrays *)

Section Arrays.
Context {A : Type}.

Lemma length_set_nth (i : nat) (l : list A) (x : A) :
  length (set_nth i l x) = length l.
Proof.
  revert i; induction l as [|y l IH]; intros [|i]; simpl; auto.
Qed.

Lemma nth_set_nth_eq (i : nat) (l : list A) (x d : A) :
  (i < length l)%nat -> nth i (set_nth i l x) d = x.
Proof.
  revert i; induction l as [|y l IH]; intros [|i] H; simpl in *; try lia; auto.
  apply IH; lia.
Qed.

Lemma nth_set_nth_neq (i j : nat) (l : list A) (x d : A) :
  i <> j -> nth j (set_nth i l x) d = nth j l d.
Proof.
  revert i j; induction l as [|y l IH]; intros [|i] [|j] H; simpl; auto; try lia.
Qed.

Lemma nth_set_nth (i j : nat) (l : list A) (x d : A) :
  nth j (set_nth i l x) d = if Nat.eqb i j then (if Nat.ltb j (length l) then x else d)
                            else nth j l d.
Proof.
  destruct (Nat.eqb_spec i j) as [<-|Hne].
  - destruct (Nat.ltb_spec i (length l)).
    + now apply nth_set_nth_eq.
    + apply nth_overflow. rewrite length_set_nth; lia.
  - now apply nth_set_nth_neq.
Qed.

End Arrays.

Lemma pget_neg_lt (p : list Z) (u : nat) : pget p u < 0 -> (u < length p)%nat.
Proof.
  unfold pget; intros H.
  destruct (Nat.lt_ge_cases u (length p)) as [|Hge]; auto.
  rewrite nth_overflow in H by lia; lia.
Qed.

Lemma get_bit_lt (bm : list bool) (u : nat) : get_bit bm u = true -> (u < length bm)%nat.
Proof.
  unfold get_bit; intros H.
  destruct (Nat.lt_ge_cases u (length bm)) as [|Hge]; auto.
  rewrite nth_overflow in H by lia; discriminate.
Qed.

Lemma pget_set_nth (p : list Z) (i j : nat) (x : Z) :
  pget (set_nth i p x) j = if Nat.eqb i j then (if Nat.ltb j (length p) then x else 0)
                           else pget p j.
Proof. apply nth_set_nth. Qed.

Lemma get_bit_set_nth (bm : list bool) (i j : nat) (x : bool) :
  get_bit (set_nth i bm x) j = if Nat.eqb i j then (if Nat.ltb j (length bm) then x else false)
                               else get_bit bm j.
Proof. apply nth_set_nth. Qed.

Lemma get_bit_reset (bm : list bool) (u : nat) : get_bit (reset bm) u = false.
Proof.
  unfold get_bit, reset.
  destruct (Nat.lt_ge_cases u (length bm)).
  - now rewrite nth_repeat_lt.
  - apply nth_overflow; rewrite repeat_length; lia.
Qed.

Lemma length_reset (bm : list bool) : length (reset bm) = length bm.
Proof. apply repeat_length. Qed.

Lemma length_InitParent (g : Graph) : length (InitParent g) = num_nodes g.
Proof. unfold InitParent; now rewrite length_map, length_seq. Qed.

Lemma pget_InitParent (g : Graph) (u : nat) :
  (u < num_nodes g)%nat ->
  pget (InitParent g) u = if negb (out_degree g u =? 0) then - out_degree g u else -1.
Proof.
  intros Hu; unfold pget, InitParent.
  set (f := fun n => if negb (out_degree g n =? 0) then - out_degree g n else -1).
  rewrite (nth_indep _ 0 (f O)) by (rewrite length_map, length_seq; lia).
  rewrite map_nth, seq_nth by lia. reflexivity.
Qed.

Lemma out_degree_nonneg (g : Graph) (u : nat) : 0 <= out_degree g u.
Proof. unfold out_degree; lia. Qed.

Lemma InitParent_neg (g : Graph) (u : nat) :
  (u < num_nodes g)%nat -> pget (InitParent g) u < 0.
Proof.
  intros Hu; rewrite pget_InitParent by auto.
  pose proof (out_degree_nonneg g u).
  destruct (out_degree g u =? 0) eqn:E; simpl; [lia|].
  apply Z.eqb_neq in E; lia.
Qed.

(** * Claims on the parent array *)

Definition sumZ (l : list Z) : Z := fold_right Z.add 0 l.

Lemma sumZ_app (l1 l2 : list Z) : sumZ (l1 ++ l2) = sumZ l1 + sumZ l2.
Proof. induction l1; simpl; lia. Qed.

(** From [p] to [p'] exactly the vertices of [L] went from negative to
    non-negative, each once, with a new value satisfying [P]; every other
    entry is unchanged. *)
Definition claims (P : nat -> Z -> Prop) (p p' : list Z) (L : list nat) : Prop :=
  length p' = length p /\ NoDup L /\
  (forall x, In x L <-> pget p x < 0 /\ 0 <= pget p' x) /\
  (forall x, ~ In x L -> pget p' x = pget p x) /\
  (forall x, In x L -> P x (pget p' x)).

Lemma claims_refl (P : nat -> Z -> Prop) (p : list Z) : claims P p p [].
Proof.
  split; [reflexivity|split; [constructor|]].
  split; [|split]; simpl; intros x; [split; [tauto|lia]|tauto|tauto].
Qed.

Lemma claims_nonneg (P : nat -> Z -> Prop) (p p' : list Z) (L : list nat) (x : nat) :
  claims P p p' L -> 0 <= pget p x -> pget p' x = pget p x.
Proof.
  intros (_ & _ & HL & Hu & _) Hx. apply Hu. intros Hin. apply HL in Hin. lia.
Qed.

Lemma claims_mono (P Q : nat -> Z -> Prop) (p p' : list Z) (L : list nat) :
  (forall x y, P x y -> Q x y) -> claims P p p' L -> claims Q p p' L.
Proof.
  intros HPQ (H1 & H2 & H3 & H4 & H5).
  refine (conj H1 (conj H2 (conj H3 (conj H4 _)))). auto.
Qed.

Lemma claims_trans (P : nat -> Z -> Prop) (p p1 p2 : list Z) (L1 L2 : list nat) :
  claims P p p1 L1 -> claims P p1 p2 L2 -> claims P p p2 (L1 ++ L2).
Proof.
  intros (A1 & N1 & M1 & U1 & P1) (A2 & N2 & M2 & U2 & P2).
  assert (D : forall x, In x L1 -> ~ In x L2).
  { intros x H1 H2. apply M1 in H1. apply M2 in H2. lia. }
  split; [lia|]. split; [apply NoDup_app; auto|]. split; [|split].
  - intros x; split.
    + intros Hin. apply in_app_or in Hin as [H|H].
      * pose proof (D x H) as HD. apply M1 in H. rewrite (U2 x HD). lia.
      * destruct (in_dec Nat.eq_dec x L1) as [H1|H1].
        -- exfalso; exact (D x H1 H).
        -- apply M2 in H. rewrite <- (U1 x H1). lia.
    + intros [Hp Hp2]. apply in_or_app.
      destruct (in_dec Nat.eq_dec x L1) as [H1|H1]; [now left|right].
      apply M2. rewrite (U1 x H1). split; [lia|].
      destruct (in_dec Nat.eq_dec x L2) as [H2|H2].
      * apply M2 in H2; lia.
      * rewrite (U2 x H2) in Hp2. rewrite (U1 x H1) in Hp2. lia.
  - intros x Hn. rewrite U2, U1; auto; intros H; apply Hn, in_or_app; auto.
  - intros x Hin. apply in_app_or in Hin as [H|H].
    + rewrite (U2 x (D x H)). auto.
    + auto.
Qed.

Lemma claims_one (P : nat -> Z -> Prop) (p : list Z) (v : nat) (x : Z) :
  pget p v < 0 -> 0 <= x -> P v x -> claims P p (set_nth v p x) [v].
Proof.
  intros Hv Hx HP. pose proof (pget_neg_lt p v Hv) as Hlt.
  assert (E : pget (set_nth v p x) v = x).
  { rewrite pget_set_nth, Nat.eqb_refl.
    destruct (Nat.ltb_spec v (length p)); lia. }
  split; [apply length_set_nth|]. split; [repeat constructor; simpl; tauto|].
  split; [|split].
  - intros y; split.
    + intros [<-|[]]. rewrite E. auto.
    + intros [Hy1 Hy2]. destruct (Nat.eq_dec v y) as [<-|Hne]; [simpl; auto|].
      rewrite pget_set_nth in Hy2. apply Nat.eqb_neq in Hne; rewrite Hne in Hy2. lia.
  - intros y Hn. rewrite pget_set_nth.
    destruct (Nat.eqb_spec v y); [subst; simpl in Hn; tauto|auto].
  - intros y [<-|[]]. rewrite E. auto.
Qed.

Lemma claims_sum (P : nat -> Z -> Prop) (p p1 : list Z) (L1 L2 : list nat) :
  claims P p p1 L1 -> (forall x, In x L2 -> ~ In x L1) ->
  map (fun x => - pget p1 x) L2 = map (fun x => - pget p x) L2.
Proof.
  intros (_ & _ & _ & U & _) HD. apply map_ext_in. intros x Hx.
  rewrite U; auto.
Qed.

Lemma claims_disjoint (P : nat -> Z -> Prop) (p p1 p2 : list Z) (L1 L2 : list nat) :
  claims P p p1 L1 -> claims P p1 p2 L2 -> forall x, In x L2 -> ~ In x L1.
Proof.
  intros (_ & _ & M1 & _) (_ & _ & M2 & _) x H2 H1.
  apply M1 in H1. apply M2 in H2. lia.
Qed.

(** * The top-down step *)

Definition td_pred (g : Graph) (q : list nat) (x : nat) (y : Z) : Prop :=
  exists u, In u q /\ y = Z.of_nat u /\ In x (neigh g u).

Lemma td_neigh_spec (u : nat) (vs : list nat) (p : list Z) (lq : list nat) (sc : Z) :
  let '(p', lq', sc') := td_neigh u vs p lq sc in
  exists L, claims (fun x y => y = Z.of_nat u /\ In x vs) p p' L /\ lq' = lq ++ L /\
    sc' = sc + sumZ (map (fun x => - pget p x) L) /\
    (forall x, In x vs -> pget p x < 0 -> 0 <= pget p' x).
Proof.
  revert p lq sc; induction vs as [|v vs IH]; intros p lq sc; simpl.
  - exists []. split; [apply claims_refl|]. split; [now rewrite app_nil_r|].
    split; [simpl; lia|]. intros x [].
  - destruct (pget p v <? 0) eqn:Hv.
    + apply Z.ltb_lt in Hv.
      set (p1 := set_nth v p (Z.of_nat u)).
      assert (C1 : claims (fun x y => y = Z.of_nat u /\ In x (v :: vs)) p p1 [v]).
      { apply claims_one; [auto|lia|]. simpl; auto. }
      specialize (IH p1 (lq ++ [v]) (sc + - pget p v)).
      destruct (td_neigh u vs p1 (lq ++ [v]) (sc + - pget p v)) as [[p' lq'] sc'].
      destruct IH as (L & C2 & Hlq & Hsc & Hc).
      apply (claims_mono _ (fun x y => y = Z.of_nat u /\ In x (v :: vs))) in C2;
        [|simpl; tauto].
      exists (v :: L). split; [|split; [|split]].
      * exact (claims_trans _ _ _ _ [v] L C1 C2).
      * rewrite Hlq, <- app_assoc. reflexivity.
      * rewrite Hsc. simpl.
        rewrite (claims_sum _ p p1 [v] L C1 (claims_disjoint _ _ _ _ _ _ C1 C2)).
        lia.
      * intros x [<-|Hx] Hpx.
        -- rewrite (claims_nonneg _ p1 p' L v C2).
           ++ unfold p1; rewrite pget_set_nth, Nat.eqb_refl.
              pose proof (pget_neg_lt p v Hv) as Hlt.
              destruct (Nat.ltb_spec v (length p)); lia.
           ++ unfold p1; rewrite pget_set_nth, Nat.eqb_refl.
              pose proof (pget_neg_lt p v Hv) as Hlt.
              destruct (Nat.ltb_spec v (length p)); lia.
        -- destruct (Nat.eq_dec v x) as [<-|Hne].
           ++ rewrite (claims_nonneg _ p1 p' L v C2);
              unfold p1; rewrite pget_set_nth, Nat.eqb_refl;
              pose proof (pget_neg_lt p v Hv) as Hlt;
              destruct (Nat.ltb_spec v (length p)); lia.
           ++ apply Hc; auto. unfold p1; rewrite pget_set_nth.
              apply Nat.eqb_neq in Hne; rewrite Hne; auto.
    + apply Z.ltb_ge in Hv.
      specialize (IH p lq sc).
      destruct (td_neigh u vs p lq sc) as [[p' lq'] sc'].
      destruct IH as (L & C & Hlq & Hsc & Hc).
      exists L. split; [|split; [|split]]; auto.
      * eapply claims_mono; [|exact C]. simpl; tauto.
      * intros x [<-|Hx] Hpx; [lia|auto].
Qed.

Lemma td_queue_spec (g : Graph) (q : list nat) (p : list Z) (lq : list nat) (sc : Z) :
  let '(p', lq', sc') := td_queue g q p lq sc in
  exists L, claims (td_pred g q) p p' L /\ lq' = lq ++ L /\
    sc' = sc + sumZ (map (fun x => - pget p x) L) /\
    (forall u x, In u q -> In x (neigh g u) -> pget p x < 0 -> 0 <= pget p' x).
Proof.
  revert p lq sc; induction q as [|u q IH]; intros p lq sc; simpl.
  - exists []. split; [apply claims_refl|]. split; [now rewrite app_nil_r|].
    split; [simpl; lia|]. intros u x [].
  - pose proof (td_neigh_spec u (neigh g u) p lq sc) as Hn.
    destruct (td_neigh u (neigh g u) p lq sc) as [[p1 lq1] sc1].
    destruct Hn as (L1 & C1 & Hlq1 & Hsc1 & Hc1).
    specialize (IH p1 lq1 sc1).
    destruct (td_queue g q p1 lq1 sc1) as [[p' lq'] sc'].
    destruct IH as (L2 & C2 & Hlq2 & Hsc2 & Hc2).
    apply (claims_mono _ (td_pred g (u :: q))) in C1;
      [|intros x y [-> Hx]; exists u; simpl; auto].
    apply (claims_mono _ (td_pred g (u :: q))) in C2;
      [|intros x y (w & Hw & -> & Hx); exists w; simpl; auto].
    exists (L1 ++ L2). split; [|split; [|split]].
    + exact (claims_trans _ _ _ _ _ _ C1 C2).
    + rewrite Hlq2, Hlq1, app_assoc. reflexivity.
    + rewrite Hsc2, Hsc1, map_app, sumZ_app.
      rewrite (claims_sum _ p p1 L1 L2 C1 (claims_disjoint _ _ _ _ _ _ C1 C2)).
      lia.
    + intros w x [<-|Hw] Hx Hpx.
      * specialize (Hc1 x Hx Hpx).
        rewrite (claims_nonneg _ p1 p' L2 x C2 Hc1). exact Hc1.
      * destruct (Z_lt_le_dec (pget p1 x) 0) as [Hlt|Hge].
        -- apply (Hc2 w x Hw Hx Hlt).
        -- rewrite (claims_nonneg _ p1 p' L2 x C2 Hge). exact Hge.
Qed.

(** The top-down step claims exactly the listed vertices [L], which form
    the next window; every unvisited neighbour of the frontier is claimed,
    with a frontier vertex it neighbours as parent. *)
Lemma TDStep_spec (g : Graph) (p : list Z) (q : list nat) :
  let '(p', q', sc) := TDStep g p q in
  claims (td_pred g q) p p' q' /\
  sc = sumZ (map (fun x => - pget p x) q') /\
  (forall u x, In u q -> In x (neigh g u) -> pget p x < 0 -> 0 <= pget p' x).
Proof.
  unfold TDStep. pose proof (td_queue_spec g q p [] 0) as H.
  destruct (td_queue g q p [] 0) as [[p' q'] sc].
  destruct H as (L & C & -> & -> & Hc). simpl. auto.
Qed.

(** * The bottom-up step *)

Lemma find_front_some (front : list bool) (vs : list nat) (v : nat) :
  find_front front vs = Some v ->
  exists pre post, vs = pre ++ v :: post /\
    (forall w, In w pre -> get_bit front w = false) /\ get_bit front v = true.
Proof.
  induction vs as [|w vs IH]; simpl; [discriminate|].
  destruct (get_bit front w) eqn:Hw.
  - intros [= <-]. exists [], vs. split; [reflexivity|split; [intros ? []|exact Hw]].
  - intros H. destruct (IH H) as (pre & post & -> & Hpre & Hv).
    exists (w :: pre), post. split; [reflexivity|]. split; auto.
    intros x [<-|Hx]; auto.
Qed.

Lemma find_front_none (front : list bool) (vs : list nat) :
  find_front front vs = None -> forall w, In w vs -> get_bit front w = false.
Proof.
  induction vs as [|w vs IH]; simpl; [tauto|].
  destruct (get_bit front w) eqn:Hw; [discriminate|].
  intros H x [<-|Hx]; auto.
Qed.

Lemma find_front_first (front : list bool) (pre post : list nat) (v : nat) :
  (forall w, In w pre -> get_bit front w = false) -> get_bit front v = true ->
  find_front front (pre ++ v :: post) = Some v.
Proof.
  induction pre as [|w pre IH]; simpl; intros Hpre Hv.
  - now rewrite Hv.
  - rewrite (Hpre w (or_introl eq_refl)). apply IH; auto.
Qed.

Definition bu_claimable (g : Graph) (front : list bool) (p : list Z) (x : nat) : bool :=
  (pget p x <? 0) &&
  match find_front front (neigh g x) with Some _ => true | None => false end.

Lemma bu_vertices_spec (g : Graph) (front : list bool) (us : list nat)
    (p : list Z) (next : list bool) (aw : Z) :
  NoDup us -> (forall x, In x us -> (x < length next)%nat) ->
  let '(p', next', aw') := bu_vertices g front us p next aw in
  length p' = length p /\ length next' = length next /\
  (forall x v, In x us -> pget p x < 0 -> find_front front (neigh g x) = Some v ->
     pget p' x = Z.of_nat v /\ get_bit next' x = true) /\
  (forall x, bu_claimable g front p x = false \/ ~ In x us ->
     pget p' x = pget p x /\ get_bit next' x = get_bit next x) /\
  aw' = aw + Z.of_nat (length (filter (bu_claimable g front p) us)).
Proof.
  revert p next aw; induction us as [|u us IH]; intros p next aw ND Hlt; simpl.
  - split; [auto|]. split; [auto|]. split; [tauto|]. split; [auto|]. lia.
  - inversion ND as [|? ? Hu ND']; subst.
    assert (Hlt' : forall x, In x us -> (x < length next)%nat) by (intros; apply Hlt; simpl; auto).
    assert (Hu_lt : (u < length next)%nat) by (apply Hlt; simpl; auto).
    destruct (pget p u <? 0) eqn:Hpu.
    + apply Z.ltb_lt in Hpu. pose proof (pget_neg_lt p u Hpu) as Hup.
      destruct (find_front front (neigh g u)) as [v|] eqn:Hf.
      * set (p1 := set_nth u p (Z.of_nat v)). set (n1 := set_nth u next true).
        assert (Hlt1 : forall x, In x us -> (x < length n1)%nat)
          by (intros; unfold n1; rewrite length_set_nth; auto).
        specialize (IH p1 n1 (aw + 1) ND' Hlt1).
        destruct (bu_vertices g front us p1 n1 (aw + 1)) as [[p' next'] aw'].
        destruct IH as (L1 & L2 & Hcl & Hun & Haw).
        assert (Hp1 : forall x, x <> u -> pget p1 x = pget p x)
          by (intros x Hx; unfold p1; rewrite pget_set_nth;
              apply Nat.eqb_neq in Hx; rewrite Nat.eqb_sym, Hx; auto).
        assert (Hn1 : forall x, x <> u -> get_bit n1 x = get_bit next x)
          by (intros x Hx; unfold n1; rewrite get_bit_set_nth;
              apply Nat.eqb_neq in Hx; rewrite Nat.eqb_sym, Hx; auto).
        assert (Hf1 : filter (bu_claimable g front p1) us = filter (bu_claimable g front p) us).
        { apply filter_ext_in. intros x Hx. unfold bu_claimable.
          rewrite Hp1; auto. intros ->; contradiction. }
        assert (Hu1 : pget p' u = Z.of_nat v /\ get_bit next' u = true).
        { destruct (Hun u (or_intror Hu)) as [E1 E2]. rewrite E1, E2.
          unfold p1, n1; rewrite pget_set_nth, get_bit_set_nth, Nat.eqb_refl.
          destruct (Nat.ltb_spec u (length p)); [|lia].
          destruct (Nat.ltb_spec u (length next)); [|lia]. auto. }
        split; [unfold p1 in L1; rewrite length_set_nth in L1; auto|].
        split; [unfold n1 in L2; rewrite length_set_nth in L2; auto|].
        split; [|split].
        -- intros x w [<-|Hx] Hpx Hfx.
           ++ rewrite Hf in Hfx; injection Hfx as <-. exact Hu1.
           ++ apply Hcl; auto. rewrite Hp1; auto. intros ->; contradiction.
        -- intros x Hx. destruct (Nat.eq_dec x u) as [->|Hne].
           ++ exfalso. destruct Hx as [Hx|Hx].
              ** unfold bu_claimable in Hx. rewrite Hf in Hx.
                 apply andb_false_iff in Hx as [Hx|Hx]; [|discriminate].
                 apply Z.ltb_ge in Hx; lia.
              ** apply Hx; simpl; auto.
           ++ rewrite <- (Hp1 x Hne), <- (Hn1 x Hne). apply Hun.
              destruct Hx as [Hx|Hx]; [left|right].
              ** unfold bu_claimable in *. rewrite Hp1; auto.
              ** intros H; apply Hx; simpl; auto.
        -- assert (Hc : bu_claimable g front p u = true).
           { unfold bu_claimable. rewrite Hf, andb_true_r. apply Z.ltb_lt; lia. }
           rewrite Haw, Hf1. simpl. rewrite Hc. simpl length. lia.
      * specialize (IH p next aw ND' Hlt').
        destruct (bu_vertices g front us p next aw) as [[p' next'] aw'].
        destruct IH as (L1 & L2 & Hcl & Hun & Haw).
        split; [auto|]. split; [auto|]. split; [|split].
        -- intros x w [<-|Hx] Hpx Hfx; [congruence|auto].
        -- intros x Hx. apply Hun. destruct (Nat.eq_dec x u) as [->|Hne].
           ++ left. unfold bu_claimable. rewrite Hf. apply andb_false_r.
           ++ destruct Hx as [Hx|Hx]; [left; auto|right].
              intros H; apply Hx; simpl; auto.
        -- assert (Hc : bu_claimable g front p u = false).
           { unfold bu_claimable. rewrite Hf. apply andb_false_r. }
           rewrite Haw. simpl. rewrite Hc. lia.
    + apply Z.ltb_ge in Hpu.
      specialize (IH p next aw ND' Hlt').
      destruct (bu_vertices g front us p next aw) as [[p' next'] aw'].
      destruct IH as (L1 & L2 & Hcl & Hun & Haw).
      split; [auto|]. split; [auto|]. split; [|split].
      * intros x w [<-|Hx] Hpx Hfx; [lia|auto].
      * intros x Hx. apply Hun. destruct (Nat.eq_dec x u) as [->|Hne].
        -- left. unfold bu_claimable. replace (pget p u <? 0) with false; auto.
           symmetry; apply Z.ltb_ge; lia.
        -- destruct Hx as [Hx|Hx]; [left; auto|right].
           intros H; apply Hx; simpl; auto.
      * assert (Hc : bu_claimable g front p u = false).
        { unfold bu_claimable. replace (pget p u <? 0) with false; auto.
          symmetry; apply Z.ltb_ge; lia. }
        rewrite Haw. simpl. rewrite Hc. lia.
Qed.

Lemma BUStep_spec (g : Graph) (p : list Z) (front next : list bool) :
  (num_nodes g <= length next)%nat ->
  let '(p', next', aw) := BUStep g p front next in
  length p' = length p /\ length next' = length next /\
  (forall x v, (x < num_nodes g)%nat -> pget p x < 0 ->
     find_front front (neigh g x) = Some v ->
     pget p' x = Z.of_nat v /\ get_bit next' x = true) /\
  (forall x, bu_claimable g front p x = false \/ (num_nodes g <= x)%nat ->
     pget p' x = pget p x /\ get_bit next' x = false) /\
  aw = Z.of_nat (length (filter (bu_claimable g front p) (seq 0 (num_nodes g)))).
Proof.
  intros Hn. unfold BUStep.
  pose proof (bu_vertices_spec g front (seq 0 (num_nodes g)) p (reset next) 0
                (seq_NoDup _ _)) as H.
  destruct (bu_vertices g front (seq 0 (num_nodes g)) p (reset next) 0) as [[p' next'] aw].
  destruct H as (L1 & L2 & Hcl & Hun & Haw).
  { intros x Hx. apply in_seq in Hx. rewrite length_reset. lia. }
  rewrite length_reset in L2.
  split; [auto|]. split; [auto|]. split; [|split].
  - intros x v Hx. apply Hcl. apply in_seq; lia.
  - intros x Hx. rewrite <- (get_bit_reset next x). apply Hun.
    destruct Hx as [Hx|Hx]; [left; auto|right]. rewrite in_seq. lia.
  - rewrite Haw. lia.
Qed.

Definition bu_pred (g : Graph) (front : list bool) (x : nat) (y : Z) : Prop :=
  exists v, find_front front (neigh g x) = Some v /\ y = Z.of_nat v.

(** The bottom-up step claims exactly the vertices of the next bitmap,
    and [awake_count] is their number. *)
Lemma BUStep_claims (g : Graph) (p : list Z) (front next : list bool) :
  (num_nodes g <= length next)%nat ->
  let '(p', next', aw) := BUStep g p front next in
  claims (bu_pred g front) p p' (BitmapToQueue g next') /\
  aw = Z.of_nat (length (BitmapToQueue g next')) /\
  length next' = length next.
Proof.
  intros Hn. pose proof (BUStep_spec g p front next Hn) as H.
  destruct (BUStep g p front next) as [[p' next'] aw].
  destruct H as (L1 & L2 & Hcl & Hun & Haw).
  assert (HB : BitmapToQueue g next' = filter (bu_claimable g front p) (seq 0 (num_nodes g))).
  { unfold BitmapToQueue. apply filter_ext_in. intros x Hx. apply in_seq in Hx.
    destruct (bu_claimable g front p x) eqn:Hc.
    - unfold bu_claimable in Hc. apply andb_true_iff in Hc as [Hc1 Hc2].
      apply Z.ltb_lt in Hc1. destruct (find_front front (neigh g x)) as [v|] eqn:Hf;
        [|discriminate].
      apply (Hcl x v); auto; lia.
    - apply (Hun x (or_introl Hc)). }
  rewrite HB. split; [|split; [exact Haw|exact L2]].
  split; [exact L1|]. split; [apply NoDup_filter, seq_NoDup|]. split; [|split].
  - intros x. rewrite filter_In, in_seq. split.
    + intros [Hx Hc]. unfold bu_claimable in Hc. apply andb_true_iff in Hc as [Hc1 Hc2].
      apply Z.ltb_lt in Hc1. destruct (find_front front (neigh g x)) as [v|] eqn:Hf;
        [|discriminate].
      destruct (Hcl x v) as [E _]; [lia|exact Hc1|exact Hf|]. split; [lia|]. rewrite E. lia.
    + intros [Hx1 Hx2].
      destruct (Nat.lt_ge_cases x (num_nodes g)) as [Hlt|Hge].
      * split; [lia|]. destruct (bu_claimable g front p x) eqn:Hc; auto.
        destruct (Hun x (or_introl Hc)) as [E _]. lia.
      * destruct (Hun x (or_intror Hge)) as [E _]. lia.
  - intros x Hx. rewrite filter_In, in_seq in Hx.
    destruct (Nat.lt_ge_cases x (num_nodes g)) as [Hlt|Hge].
    + destruct (bu_claimable g front p x) eqn:Hc.
      * exfalso; apply Hx; split; [lia|auto].
      * apply (Hun x (or_introl Hc)).
    + apply (Hun x (or_intror Hge)).
  - intros x Hx. rewrite filter_In, in_seq in Hx. destruct Hx as [Hx Hc].
    unfold bu_claimable in Hc. apply andb_true_iff in Hc as [Hc1 Hc2].
    apply Z.ltb_lt in Hc1. destruct (find_front front (neigh g x)) as [v|] eqn:Hf;
      [|discriminate].
    exists v. split; auto. apply (Hcl x v); auto; lia.
Qed.

(** * Counting unvisited vertices *)

Definition unvisited (p : list Z) : nat :=
  length (filter (fun i => pget p i <? 0) (seq 0 (length p))).

Lemma filter_split_length {T} (f h : T -> bool) (l : list T) :
  length (filter f l) =
  (length (filter (fun x => f x && h x) l) + length (filter (fun x => f x && negb (h x)) l))%nat.
Proof.
  induction l as [|x l IH]; simpl; auto.
  destruct (f x), (h x); simpl; lia.
Qed.

Lemma unvisited_le (p : list Z) : (unvisited p <= length p)%nat.
Proof.
  unfold unvisited. rewrite <- (length_seq (length p) 0) at 2. apply filter_length_le.
Qed.

Lemma claims_unvisited (P : nat -> Z -> Prop) (p p' : list Z) (L : list nat) :
  claims P p p' L -> (unvisited p' + length L = unvisited p)%nat.
Proof.
  intros C. pose proof C as (Hlen & ND & HL & HU & _).
  unfold unvisited. rewrite Hlen.
  rewrite (filter_split_length (fun i => pget p i <? 0) (fun i => pget p' i <? 0)).
  f_equal.
  - f_equal. apply filter_ext_in. intros x _.
    destruct (pget p' x <? 0) eqn:E; [|now rewrite andb_false_r].
    rewrite andb_true_r. apply Z.ltb_lt in E.
    assert (Hn : ~ In x L) by (intros Hx; apply HL in Hx; lia).
    rewrite <- (HU x Hn). symmetry. now apply Z.ltb_lt.
  - apply Permutation_length. apply NoDup_Permutation; auto.
    + apply NoDup_filter, seq_NoDup.
    + intros x. rewrite filter_In, in_seq, HL, andb_true_iff, negb_true_iff,
        Z.ltb_lt, Z.ltb_ge.
      split; [intros [H1 H2]|intros [H1 [H2 H3]]]; auto.
      pose proof (pget_neg_lt p x H1). lia.
Qed.

Lemma length_QueueToBitmap (q : list nat) (bm : list bool) :
  length (QueueToBitmap q bm) = length bm.
Proof.
  unfold QueueToBitmap. revert bm; induction q as [|u q IH]; intros bm; simpl; auto.
  rewrite IH. apply length_set_nth.
Qed.

(** * Termination *)

Definition state_sizes (g : Graph) (st : bfs_state) : Prop :=
  length (parent st) = num_nodes g /\ length (front st) = num_nodes g /\
  length (curr st) = num_nodes g.

Lemma quot_nodes_nonneg (g : Graph) (beta : Z) :
  0 < beta -> 0 <= Z.of_nat (num_nodes g) ÷ beta.
Proof. intros Hb. apply Z.quot_pos; lia. Qed.

Lemma bu_continue_pos (g : Graph) (beta aw aw_old : Z) :
  0 < beta -> 1 <= aw_old -> bu_continue g beta aw aw_old = true -> 1 <= aw.
Proof.
  intros Hb Ho H. pose proof (quot_nodes_nonneg g beta Hb).
  unfold bu_continue in H. apply orb_true_iff in H as [H|H];
    [apply Z.leb_le in H|apply Z.ltb_lt in H]; lia.
Qed.

Lemma bu_loop_some (g : Graph) (beta : Z) (fuel : nat) (p : list Z)
    (front curr : list bool) (aw : Z) :
  0 < beta -> length front = num_nodes g -> length curr = num_nodes g ->
  1 <= aw -> (unvisited p < fuel)%nat ->
  exists p' f' c' aw', bu_loop fuel g beta p front curr aw = Some (p', f', c', aw') /\
    length p' = length p /\ length f' = num_nodes g /\ length c' = num_nodes g /\
    (unvisited p' + length (BitmapToQueue g f') <= unvisited p)%nat.
Proof.
  intros Hb. revert p front curr aw.
  induction fuel as [|fuel IH]; intros p front curr aw Hf Hc Haw Hu; [lia|].
  simpl. pose proof (BUStep_claims g p front curr ltac:(lia)) as H.
  destruct (BUStep g p front curr) as [[p1 next1] aw1].
  destruct H as (C & Haw1 & Hl1).
  pose proof (claims_unvisited _ _ _ _ C) as Hcount.
  pose proof C as (Hlp & _).
  destruct (bu_continue g beta aw1 aw) eqn:Hcont.
  - pose proof (bu_continue_pos g beta aw1 aw Hb Haw Hcont) as Hpos.
    destruct (IH p1 next1 front aw1) as (p' & f' & c' & aw' & E & L1 & L2 & L3 & Hle);
      try lia.
    exists p', f', c', aw'. repeat split; auto; lia.
  - exists p1, next1, front, aw1. repeat split; auto; lia.
Qed.

Lemma dobfs_iter_some (g : Graph) (alpha beta : Z) (st : bfs_state) :
  0 < beta -> queue st <> [] -> state_sizes g st ->
  exists st', dobfs_iter g alpha beta st = Some st' /\ state_sizes g st' /\
    (unvisited (parent st') + length (queue st') <= unvisited (parent st))%nat.
Proof.
  intros Hb Hq (Hp & Hf & Hc). unfold dobfs_iter.
  destruct (edges_to_check st ÷ alpha <? scout_count st).
  - destruct (bu_loop_some g beta (S (num_nodes g)) (parent st)
                (QueueToBitmap (queue st) (front st)) (curr st)
                (Z.of_nat (length (queue st))))
      as (p' & f' & c' & aw' & E & L1 & L2 & L3 & Hle); auto.
    + rewrite length_QueueToBitmap; auto.
    + destruct (queue st); [congruence|simpl; lia].
    + pose proof (unvisited_le (parent st)); lia.
    + rewrite E. eexists; split; [reflexivity|]. split; [|exact Hle].
      split; simpl; [lia|auto].
  - pose proof (TDStep_spec g (parent st) (queue st)) as H.
    destruct (TDStep g (parent st) (queue st)) as [[p' q'] sc].
    destruct H as (C & _ & _). pose proof (claims_unvisited _ _ _ _ C) as Hcount.
    pose proof C as (Hl & _).
    eexists; split; [reflexivity|]. split; [|simpl; lia].
    split; simpl; [lia|auto].
Qed.

Lemma dobfs_loop_some (g : Graph) (alpha beta : Z) (fuel : nat) (st : bfs_state) :
  0 < beta -> state_sizes g st ->
  (unvisited (parent st) + (if queue st then 0 else 1) < fuel)%nat ->
  exists p, dobfs_loop fuel g alpha beta st = Some p.
Proof.
  intros Hb. revert st. induction fuel as [|fuel IH]; intros st Hs Hu; [lia|].
  simpl. destruct (queue st) as [|u q] eqn:Hq; [eauto|].
  destruct (dobfs_iter_some g alpha beta st Hb ltac:(congruence) Hs)
    as (st' & E & Hs' & Hle).
  rewrite E. apply IH; auto.
  destruct (queue st'); simpl in *; lia.
Qed.

Lemma dobfs_init_sizes (g : Graph) (source : nat) : state_sizes g (dobfs_init g source).
Proof.
  unfold dobfs_init, state_sizes; simpl.
  rewrite length_set_nth, length_InitParent, repeat_length. auto.
Qed.

(** ** Claim C7 *)

(** C7: for every graph, every in-range source and the default (or any
    positive) [beta], the bottom-up [do ... while] loop exits within
    [num_nodes + 1] rounds from any state the controller enters it in, and
    the controller loop exits with an empty frontier: [DOBFS] returns. *)
Theorem DOBFS_terminates (g : Graph) (source : nat) (alpha beta : Z) :
  (source < num_nodes g)%nat -> 0 < beta ->
  (exists p, DOBFS g source alpha beta = Some p) /\
  (forall p front curr aw,
     length p = num_nodes g -> length front = num_nodes g ->
     length curr = num_nodes g -> 1 <= aw ->
     exists r, bu_loop (S (num_nodes g)) g beta p front curr aw = Some r).
Proof.
  intros Hs Hb. split.
  - unfold DOBFS. apply dobfs_loop_some; auto using dobfs_init_sizes.
    pose proof (unvisited_le (parent (dobfs_init g source))) as H.
    unfold dobfs_init in *; simpl in *.
    rewrite length_set_nth, length_InitParent in H. lia.
  - intros p front curr aw Hp Hf Hc Haw.
    destruct (bu_loop_some g beta (S (num_nodes g)) p front curr aw)
      as (p' & f' & c' & aw' & E & _); auto.
    + pose proof (unvisited_le p); lia.
    + eauto.
Qed.

(** * Write-once *)

Lemma bu_vertices_nonneg (g : Graph) (front : list bool) (us : list nat)
    (p : list Z) (next : list bool) (aw : Z) (x : nat) :
  0 <= pget p x ->
  let '(p', _, _) := bu_vertices g front us p next aw in pget p' x = pget p x.
Proof.
  revert p next aw; induction us as [|u us IH]; intros p next aw Hx; simpl; auto.
  destruct (pget p u <? 0) eqn:Hu; [|apply IH; auto].
  apply Z.ltb_lt in Hu.
  destruct (find_front front (neigh g u)) as [v|]; [|apply IH; auto].
  assert (Hne : u <> x) by (intros ->; lia).
  assert (E : pget (set_nth u p (Z.of_nat v)) x = pget p x).
  { rewrite pget_set_nth. apply Nat.eqb_neq in Hne. now rewrite Hne. }
  specialize (IH (set_nth u p (Z.of_nat v)) (set_nth u next true) (aw + 1)).
  destruct (bu_vertices g front us (set_nth u p (Z.of_nat v)) (set_nth u next true) (aw + 1))
    as [[p' n'] a']. rewrite IH; auto; lia.
Qed.

Lemma BUStep_nonneg (g : Graph) (p : list Z) (front next : list bool) (x : nat) :
  0 <= pget p x -> let '(p', _, _) := BUStep g p front next in pget p' x = pget p x.
Proof. apply bu_vertices_nonneg. Qed.

Lemma TDStep_nonneg (g : Graph) (p : list Z) (q : list nat) (x : nat) :
  0 <= pget p x -> let '(p', _, _) := TDStep g p q in pget p' x = pget p x.
Proof.
  intros Hx. pose proof (TDStep_spec g p q) as H.
  destruct (TDStep g p q) as [[p' q'] sc]. destruct H as (C & _).
  exact (claims_nonneg _ _ _ _ _ C Hx).
Qed.

Lemma bu_loop_nonneg (g : Graph) (beta : Z) (fuel : nat) (p : list Z)
    (front curr : list bool) (aw : Z) (x : nat) p' f' c' aw' :
  bu_loop fuel g beta p front curr aw = Some (p', f', c', aw') ->
  0 <= pget p x -> pget p' x = pget p x.
Proof.
  revert p front curr aw. induction fuel as [|fuel IH]; intros p front curr aw E Hx;
    simpl in E; [discriminate|].
  pose proof (BUStep_nonneg g p front curr x Hx) as H1.
  destruct (BUStep g p front curr) as [[p1 next1] aw1].
  destruct (bu_continue g beta aw1 aw).
  - rewrite (IH _ _ _ _ E); auto; lia.
  - injection E as <- _ _ _. auto.
Qed.

Lemma dobfs_iter_nonneg (g : Graph) (alpha beta : Z) (st st' : bfs_state) (x : nat) :
  dobfs_iter g alpha beta st = Some st' ->
  0 <= pget (parent st) x -> pget (parent st') x = pget (parent st) x.
Proof.
  unfold dobfs_iter. intros E Hx.
  destruct (edges_to_check st ÷ alpha <? scout_count st).
  - destruct (bu_loop (S (num_nodes g)) g beta (parent st)
                (QueueToBitmap (queue st) (front st)) (curr st)
                (Z.of_nat (length (queue st)))) as [[[[p' f'] c'] aw']|] eqn:Eb;
      [|discriminate].
    injection E as <-. simpl. exact (bu_loop_nonneg _ _ _ _ _ _ _ _ _ _ _ _ Eb Hx).
  - pose proof (TDStep_nonneg g (parent st) (queue st) x Hx) as H.
    destruct (TDStep g (parent st) (queue st)) as [[p' q'] sc].
    injection E as <-. exact H.
Qed.

Lemma dobfs_loop_nonneg (g : Graph) (alpha beta : Z) (fuel : nat) (st : bfs_state)
    (p : list Z) (x : nat) :
  dobfs_loop fuel g alpha beta st = Some p ->
  0 <= pget (parent st) x -> pget p x = pget (parent st) x.
Proof.
  revert st. induction fuel as [|fuel IH]; intros st E Hx; simpl in E; [discriminate|].
  destruct (queue st); [congruence|].
  destruct (dobfs_iter g alpha beta st) as [st'|] eqn:Ei; [|discriminate].
  pose proof (dobfs_iter_nonneg g alpha beta st st' x Ei Hx) as H.
  rewrite (IH st' E); lia.
Qed.

Lemma find_front_existsb (front : list bool) (vs : list nat) :
  match find_front front vs with Some _ => true | None => false end =
  existsb (get_bit front) vs.
Proof.
  induction vs as [|v vs IH]; simpl; auto. destruct (get_bit front v); auto.
Qed.

(** * Claims on the steps *)

(** ** Claim C8 *)

(** C8: [InitParent] returns an array of [num_nodes] entries with
    [parent[u] = -out_degree(u)] when [out_degree(u) > 0] and
    [parent[u] = -1] when [out_degree(u) = 0]. *)
Theorem InitParent_encoding (g : Graph) :
  length (InitParent g) = num_nodes g /\
  (forall u, (u < num_nodes g)%nat ->
     (0 < out_degree g u -> pget (InitParent g) u = - out_degree g u) /\
     (out_degree g u = 0 -> pget (InitParent g) u = -1)).
Proof.
  split; [apply length_InitParent|].
  intros u Hu. rewrite pget_InitParent by exact Hu. split; intros H.
  - replace (out_degree g u =? 0) with false by (symmetry; apply Z.eqb_neq; lia).
    reflexivity.
  - rewrite H. reflexivity.
Qed.

(** ** Claim C6 *)

(** C6: a non-negative parent entry is never changed again: not by
    [TDStep], not by [BUStep], not by a whole bottom-up phase, not by a
    controller iteration (which includes both frontier conversions; these
    do not take the parent array), and not by the rest of the run. *)
Theorem parent_write_once (g : Graph) (alpha beta : Z) :
  (forall p q x, 0 <= pget p x ->
     let '(p', _, _) := TDStep g p q in pget p' x = pget p x) /\
  (forall p front next x, 0 <= pget p x ->
     let '(p', _, _) := BUStep g p front next in pget p' x = pget p x) /\
  (forall fuel p front curr aw p' f' c' aw' x,
     bu_loop fuel g beta p front curr aw = Some (p', f', c', aw') ->
     0 <= pget p x -> pget p' x = pget p x) /\
  (forall st st' x, dobfs_iter g alpha beta st = Some st' ->
     0 <= pget (parent st) x -> pget (parent st') x = pget (parent st) x) /\
  (forall fuel st p x, dobfs_loop fuel g alpha beta st = Some p ->
     0 <= pget (parent st) x -> pget p x = pget (parent st) x).
Proof.
  split; [intros; apply TDStep_nonneg; auto|].
  split; [intros; apply BUStep_nonneg; auto|].
  split; [intros; eapply bu_loop_nonneg; eauto|].
  split; [intros; eapply dobfs_iter_nonneg; eauto|].
  intros; eapply dobfs_loop_nonneg; eauto.
Qed.

(** ** Claim C3 *)

(** C3 (as stated, refuted): on [0 -> 1] with the source [0] expanded,
    vertex [1] (out-degree 0) is claimed, but [scout_count] is [1], not the
    sum of the claimed vertices' out-degrees, [0]: [InitParent] encodes
    out-degree 0 as [-1]. *)
Lemma TDStep_scout_not_degree_sum :
  ~ (let '(_, q', sc) := TDStep g_leaf [0; -1] [0%nat] in
     sc = sumZ (map (out_degree g_leaf) q')).
Proof. vm_compute. discriminate. Qed.

(** C3 (amended): when every negative parent entry holds the
    [InitParent] encoding, [TDStep]'s next frontier lists exactly the newly
    claimed vertices, each once, and [scout_count] is the sum over them of
    their out-degree, counting [1] for an out-degree-0 vertex. *)
Theorem TDStep_scout_count (g : Graph) (p : list Z) (q : list nat) :
  (forall x, pget p x < 0 -> pget p x = pget (InitParent g) x) ->
  let '(p', q', sc) := TDStep g p q in
  NoDup q' /\ (forall x, In x q' <-> pget p x < 0 /\ 0 <= pget p' x) /\
  sc = sumZ (map (fun x => if out_degree g x =? 0 then 1 else out_degree g x) q').
Proof.
  intros Henc. pose proof (TDStep_spec g p q) as H.
  destruct (TDStep g p q) as [[p' q'] sc].
  destruct H as ((_ & ND & HL & _) & Hsc & _).
  split; [exact ND|]. split; [exact HL|].
  rewrite Hsc. f_equal. apply map_ext_in. intros x Hx.
  apply HL in Hx as [Hx _]. pose proof (Henc x Hx) as Hi. rewrite Hi.
  rewrite Hi in Hx.
  pose proof (pget_neg_lt _ _ Hx) as Hlt. rewrite length_InitParent in Hlt.
  rewrite pget_InitParent by exact Hlt.
  destruct (out_degree g x =? 0); simpl; lia.
Qed.

Lemma TDStep_scout_count_witness :
  (forall x, pget [0; -1] x < 0 -> pget [0; -1] x = pget (InitParent g_leaf) x) /\
  (let '(p', q', sc) := TDStep g_leaf [0; -1] [0%nat] in
   NoDup q' /\ (forall x, In x q' <-> pget [0; -1] x < 0 /\ 0 <= pget p' x) /\
   sc = sumZ (map (fun x => if out_degree g_leaf x =? 0 then 1 else out_degree g_leaf x) q')).
Proof.
  assert (H : forall x, pget [0; -1] x < 0 -> pget [0; -1] x = pget (InitParent g_leaf) x).
  { intros [|[|x]]; unfold pget; simpl; intros Hx; try lia; reflexivity. }
  split; [exact H|]. apply (TDStep_scout_count g_leaf [0; -1] [0%nat] H).
Defined.

(** ** Claim C5 *)

(** C5: [BUStep] resets the output bitmap; every vertex [u] with
    [parent[u] < 0] having a neighbour in [front] gets as parent the first
    such neighbour in iteration order and its bit set; all other entries
    and bits are unchanged and clear; [awake_count] counts the vertices so
    discovered. *)
Theorem BUStep_correct (g : Graph) (p : list Z) (front next : list bool) :
  length next = num_nodes g ->
  let '(p', next', aw) := BUStep g p front next in
  length next' = num_nodes g /\
  (forall u pre v post, (u < num_nodes g)%nat -> pget p u < 0 ->
     neigh g u = pre ++ v :: post ->
     (forall w, In w pre -> get_bit front w = false) -> get_bit front v = true ->
     pget p' u = Z.of_nat v /\ get_bit next' u = true) /\
  (forall u, ~ ((u < num_nodes g)%nat /\ pget p u < 0 /\
                exists v, In v (neigh g u) /\ get_bit front v = true) ->
     pget p' u = pget p u /\ get_bit next' u = false) /\
  aw = Z.of_nat (length (filter (fun u => (pget p u <? 0) && existsb (get_bit front) (neigh g u))
                          (seq 0 (num_nodes g)))).
Proof.
  intros Hlen. pose proof (BUStep_spec g p front next ltac:(lia)) as H.
  destruct (BUStep g p front next) as [[p' next'] aw].
  destruct H as (L1 & L2 & Hcl & Hun & Haw).
  split; [lia|]. split; [|split].
  - intros u pre v post Hu Hpu Hn Hpre Hv. apply Hcl; auto.
    rewrite Hn. apply find_front_first; auto.
  - intros u Hnot. apply Hun.
    destruct (Nat.lt_ge_cases u (num_nodes g)) as [Hlt|Hge]; [left|right; lia].
    unfold bu_claimable. rewrite find_front_existsb.
    destruct (pget p u <? 0) eqn:E1; [|reflexivity].
    destruct (existsb (get_bit front) (neigh g u)) eqn:E2; [|reflexivity].
    exfalso. apply Hnot. apply existsb_exists in E2. apply Z.ltb_lt in E1. auto.
  - rewrite Haw. f_equal. f_equal. apply filter_ext. intros x.
    unfold bu_claimable. now rewrite find_front_existsb.
Qed.

Lemma BUStep_correct_witness :
  length [false; false; false; true] = num_nodes g_path_undirected /\
  BUStep g_path_undirected [0; -2; -2; -1] [true; false; false; false]
         [false; false; false; true] =
    ([0; 0; -2; -1], [false; true; false; false], 1) /\
  (let '(p', next', aw) := BUStep g_path_undirected [0; -2; -2; -1]
                             [true; false; false; false] [false; false; false; true] in
   length next' = num_nodes g_path_undirected /\
   (forall u pre v post, (u < num_nodes g_path_undirected)%nat -> pget [0; -2; -2; -1] u < 0 ->
      neigh g_path_undirected u = pre ++ v :: post ->
      (forall w, In w pre -> get_bit [true; false; false; false] w = false) ->
      get_bit [true; false; false; false] v = true ->
      pget p' u = Z.of_nat v /\ get_bit next' u = true) /\
   (forall u, ~ ((u < num_nodes g_path_undirected)%nat /\ pget [0; -2; -2; -1] u < 0 /\
                 exists v, In v (neigh g_path_undirected u) /\
                           get_bit [true; false; false; false] v = true) ->
      pget p' u = pget [0; -2; -2; -1] u /\ get_bit next' u = false) /\
   aw = Z.of_nat (length (filter (fun u => (pget [0; -2; -2; -1] u <? 0) &&
                                   existsb (get_bit [true; false; false; false])
                                           (neigh g_path_undirected u))
                           (seq 0 (num_nodes g_path_undirected))))).
Proof.
  split; [reflexivity|]. split; [vm_compute; reflexivity|].
  apply BUStep_correct. reflexivity.
Defined.

(** ** Claim C2 *)

(** C2 (code defect): [DOBFS] leaves [parent[1] = -2], the initial encoding
    of its out-degree, while [BFSVerifier] accepts an unreached vertex only
    when its entry equals the depth sentinel [-1]: the verifier rejects the
    result ("Reachability mismatch"). *)
Theorem DOBFS_rejected_by_BFSVerifier :
  DOBFS g_unreach 0 15 18 = Some [0; -2; -1; -1] /\
  nth 1 (bfs_depth g_unreach 0) 0 = -1 /\
  BFSVerifier g_unreach 0 [0; -2; -1; -1] = false.
Proof. vm_compute. auto. Qed.

(** ** Claim C9 *)

(** C9 (as stated, refuted): on the directed path [0 -> 1 -> 2 -> 3]
    ([scout_count = 1 > 3 / 15]) the controller starts bottom-up, and the
    bottom-up step scans each vertex's own list ([1 -> 2], ...), so no
    vertex is discovered. *)
Lemma DOBFS_directed_path_not_tree :
  DOBFS g_path_directed 0 15 18 <> Some [0; 0; 1; 2].
Proof. vm_compute. discriminate. Qed.

(** C9 (amended): with default parameters and source [0], the path given
    with symmetric neighbour lists (undirected) yields [[0; 0; 1; 2]]; the
    one-directional path [0 -> 1 -> 2 -> 3] yields [[0; -1; -1; -1]]. *)
Theorem DOBFS_path_graph :
  DOBFS g_path_undirected 0 15 18 = Some [0; 0; 1; 2] /\
  DOBFS g_path_directed 0 15 18 = Some [0; -1; -1; -1].
Proof. split; vm_compute; reflexivity. Qed.

Lemma DOBFS_terminates_witness :
  (0 < num_nodes g_path_undirected)%nat /\ 0 < 18 /\
  ((exists p, DOBFS g_path_undirected 0 15 18 = Some p) /\
   (forall p front curr aw,
      length p = num_nodes g_path_undirected ->
      length front = num_nodes g_path_undirected ->
      length curr = num_nodes g_path_undirected -> 1 <= aw ->
      exists r, bu_loop (S (num_nodes g_path_undirected)) g_path_undirected 18
                  p front curr aw = Some r)).
Proof.
  assert (Hn : (0 < num_nodes g_path_undirected)%nat) by (simpl; lia).
  split; [exact Hn|]. split; [lia|].
  apply DOBFS_terminates; [exact Hn|lia].
Defined.

(** * Loop invariants *)

Lemma bu_loop_inv (g : Graph) (beta : Z) (I : list Z -> list bool -> list bool -> Prop) :
  (forall p front curr, I p front curr ->
     let '(p', next', _) := BUStep g p front curr in I p' next' front) ->
  forall fuel p front curr aw p' f' c' aw',
  I p front curr -> bu_loop fuel g beta p front curr aw = Some (p', f', c', aw') ->
  I p' f' c'.
Proof.
  intros Hstep fuel. induction fuel as [|fuel IH];
    intros p front curr aw p' f' c' aw' HI E; simpl in E; [discriminate|].
  specialize (Hstep p front curr HI).
  destruct (BUStep g p front curr) as [[p1 next1] aw1].
  destruct (bu_continue g beta aw1 aw).
  - exact (IH _ _ _ _ _ _ _ _ Hstep E).
  - injection E as <- <- <- _. exact Hstep.
Qed.

Lemma dobfs_loop_inv (g : Graph) (alpha beta : Z) (I : bfs_state -> Prop)
    (Q : list Z -> Prop) :
  (forall st st', I st -> queue st <> [] -> dobfs_iter g alpha beta st = Some st' -> I st') ->
  (forall st, I st -> queue st = [] -> Q (parent st)) ->
  forall fuel st p, I st -> dobfs_loop fuel g alpha beta st = Some p -> Q p.
Proof.
  intros Hstep Hend fuel. induction fuel as [|fuel IH]; intros st p HI E;
    simpl in E; [discriminate|].
  destruct (queue st) as [|u q] eqn:Hq.
  - injection E as <-. apply Hend; auto.
  - destruct (dobfs_iter g alpha beta st) as [st'|] eqn:Ei; [|discriminate].
    apply (IH st'); auto. apply (Hstep st); auto. congruence.
Qed.

Lemma get_bit_QueueToBitmap (q : list nat) (bm : list bool) (x : nat) :
  get_bit (QueueToBitmap q bm) x = true <->
  (x < length bm)%nat /\ In x q \/ get_bit bm x = true.
Proof.
  unfold QueueToBitmap. revert bm; induction q as [|u q IH]; intros bm; simpl.
  - tauto.
  - rewrite IH, length_set_nth, get_bit_set_nth.
    destruct (Nat.eqb_spec u x) as [<-|Hne].
    + destruct (Nat.ltb_spec u (length bm)) as [Hlt|Hge].
      * tauto.
      * assert (get_bit bm u <> true) by (intros Hb; apply get_bit_lt in Hb; lia).
        split; intros [[Ha Hb]|Hb]; try lia; tauto.
    + split; intros [[Ha Hb]|Hb]; try tauto.
      all: try (destruct Hb as [Hb|Hb]; [congruence|tauto]).
Qed.

Lemma In_BitmapToQueue (g : Graph) (bm : list bool) (x : nat) :
  In x (BitmapToQueue g bm) <-> (x < num_nodes g)%nat /\ get_bit bm x = true.
Proof.
  unfold BitmapToQueue. rewrite filter_In, in_seq.
  split; intros [H1 H2]; split; auto; lia.
Qed.

(** * Predecessors are visited *)

Definition parent_closed (n source : nat) (p : list Z) : Prop :=
  pget p source = Z.of_nat source /\
  forall u, (u < n)%nat -> 0 <= pget p u ->
    pget p u < Z.of_nat n /\ 0 <= pget p (Z.to_nat (pget p u)).

Definition list_visited (n : nat) (p : list Z) (l : list nat) : Prop :=
  forall x, In x l -> (x < n)%nat /\ 0 <= pget p x.

Definition bitmap_visited (n : nat) (p : list Z) (bm : list bool) : Prop :=
  forall x, get_bit bm x = true -> (x < n)%nat /\ 0 <= pget p x.

(** Every entry a step changes receives the id of a vertex in range that
    was visited before the step. *)
Definition writes_visited (n : nat) (p p' : list Z) : Prop :=
  forall u, pget p' u <> pget p u ->
    0 <= pget p' u /\ pget p' u < Z.of_nat n /\ 0 <= pget p (Z.to_nat (pget p' u)).

Lemma claims_closed (P : nat -> Z -> Prop) (n source : nat) (p p' : list Z) (L : list nat) :
  claims P p p' L -> length p = n ->
  (forall x y, P x y -> 0 <= y /\ y < Z.of_nat n /\ 0 <= pget p (Z.to_nat y)) ->
  parent_closed n source p ->
  writes_visited n p p' /\ parent_closed n source p' /\ list_visited n p' L.
Proof.
  intros C Hn HP [Hs Hc]. pose proof C as (Hl & ND & HL & HU & HPL).
  split; [|split; [split|]].
  - intros u Hne. destruct (in_dec Nat.eq_dec u L) as [Hin|Hin].
    + exact (HP u _ (HPL u Hin)).
    + exfalso; apply Hne, HU, Hin.
  - rewrite (claims_nonneg _ _ _ _ _ C); lia.
  - intros u Hu Hpu. destruct (in_dec Nat.eq_dec u L) as [Hin|Hin].
    + destruct (HP _ _ (HPL u Hin)) as (H1 & H2 & H3). split; [lia|].
      rewrite (claims_nonneg _ _ _ _ _ C); auto.
    + rewrite (HU u Hin) in *. destruct (Hc u Hu Hpu) as [H1 H2]. split; [lia|].
      rewrite (claims_nonneg _ _ _ _ _ C); auto.
  - intros x Hx. apply HL in Hx as [H1 H2]. split; auto.
    apply pget_neg_lt in H1; lia.
Qed.

Lemma list_visited_mono (n : nat) (p p' : list Z) (l : list nat) :
  (forall x, 0 <= pget p x -> pget p' x = pget p x) ->
  list_visited n p l -> list_visited n p' l.
Proof. intros H Hl x Hx. destruct (Hl x Hx). rewrite H; auto. Qed.

Lemma bitmap_visited_mono (n : nat) (p p' : list Z) (bm : list bool) :
  (forall x, 0 <= pget p x -> pget p' x = pget p x) ->
  bitmap_visited n p bm -> bitmap_visited n p' bm.
Proof. intros H Hl x Hx. destruct (Hl x Hx). rewrite H; auto. Qed.

Lemma TDStep_closed (g : Graph) (source : nat) (p : list Z) (q : list nat) :
  length p = num_nodes g -> parent_closed (num_nodes g) source p ->
  list_visited (num_nodes g) p q ->
  let '(p', q', _) := TDStep g p q in
  writes_visited (num_nodes g) p p' /\ parent_closed (num_nodes g) source p' /\
  list_visited (num_nodes g) p' q'.
Proof.
  intros Hn Hc Hq. pose proof (TDStep_spec g p q) as H.
  destruct (TDStep g p q) as [[p' q'] sc]. destruct H as (C & _).
  apply (claims_closed _ _ _ _ _ _ C Hn); auto.
  intros x y (u & Hu & -> & _). destruct (Hq u Hu). rewrite Nat2Z.id. lia.
Qed.

Lemma BUStep_bits_range (g : Graph) (p : list Z) (front next : list bool) :
  (num_nodes g <= length next)%nat ->
  let '(_, next', _) := BUStep g p front next in
  forall x, get_bit next' x = true -> (x < num_nodes g)%nat.
Proof.
  intros Hn. pose proof (BUStep_spec g p front next Hn) as H.
  destruct (BUStep g p front next) as [[p' next'] aw].
  destruct H as (_ & _ & _ & Hun & _). intros x Hx.
  destruct (Nat.lt_ge_cases x (num_nodes g)) as [|Hge]; auto.
  destruct (Hun x (or_intror Hge)) as [_ E]. congruence.
Qed.

Lemma BUStep_closed (g : Graph) (source : nat) (p : list Z) (front next : list bool) :
  length p = num_nodes g -> (num_nodes g <= length next)%nat ->
  parent_closed (num_nodes g) source p -> bitmap_visited (num_nodes g) p front ->
  let '(p', next', _) := BUStep g p front next in
  writes_visited (num_nodes g) p p' /\ parent_closed (num_nodes g) source p' /\
  bitmap_visited (num_nodes g) p' next' /\ bitmap_visited (num_nodes g) p' front.
Proof.
  intros Hn Hnext Hc Hf. pose proof (BUStep_claims g p front next Hnext) as H.
  pose proof (BUStep_bits_range g p front next Hnext) as Hr.
  pose proof (BUStep_nonneg g p front next) as Hnn.
  destruct (BUStep g p front next) as [[p' next'] aw]. destruct H as (C & _ & _).
  destruct (claims_closed _ _ source _ _ _ C Hn) as (W & Cl & L).
  { intros x y (v & Hv & ->). destruct (find_front_some _ _ _ Hv) as (pre & post & _ & _ & Hb).
    destruct (Hf v Hb). rewrite Nat2Z.id. lia. }
  { exact Hc. }
  split; [exact W|]. split; [exact Cl|]. split.
  - intros x Hx. apply L, In_BitmapToQueue. auto.
  - apply (bitmap_visited_mono _ p); auto.
Qed.

Lemma QueueToBitmap_visited (n : nat) (p : list Z) (q : list nat) (bm : list bool) :
  list_visited n p q -> bitmap_visited n p bm -> bitmap_visited n p (QueueToBitmap q bm).
Proof.
  intros Hq Hb x Hx. apply get_bit_QueueToBitmap in Hx as [[_ Hx]|Hx]; auto.
Qed.

Lemma BitmapToQueue_visited (g : Graph) (p : list Z) (bm : list bool) :
  bitmap_visited (num_nodes g) p bm -> list_visited (num_nodes g) p (BitmapToQueue g bm).
Proof. intros Hb x Hx. apply In_BitmapToQueue in Hx as [_ Hx]. auto. Qed.

Definition ctrl_ok (g : Graph) (source : nat) (st : bfs_state) : Prop :=
  state_sizes g st /\ parent_closed (num_nodes g) source (parent st) /\
  list_visited (num_nodes g) (parent st) (queue st) /\
  bitmap_visited (num_nodes g) (parent st) (front st).

Lemma dobfs_init_ok (g : Graph) (source : nat) :
  (source < num_nodes g)%nat -> ctrl_ok g source (dobfs_init g source).
Proof.
  intros Hs. assert (Hl : (source < length (InitParent g))%nat) by (rewrite length_InitParent; auto).
  assert (E : forall u, pget (set_nth source (InitParent g) (Z.of_nat source)) u =
                   if Nat.eqb source u then Z.of_nat source else pget (InitParent g) u).
  { intros u. rewrite pget_set_nth. destruct (Nat.eqb_spec source u) as [<-|]; auto.
    destruct (Nat.ltb_spec source (length (InitParent g))); auto; lia. }
  split; [apply dobfs_init_sizes|]. unfold dobfs_init; simpl.
  split; [split|split].
  - rewrite E, Nat.eqb_refl. reflexivity.
  - intros u Hu Hpu. rewrite E in *. destruct (Nat.eqb_spec source u) as [<-|Hne].
    + rewrite Nat2Z.id, E, Nat.eqb_refl. lia.
    + pose proof (InitParent_neg g u Hu). lia.
  - intros x [<-|[]]. rewrite E, Nat.eqb_refl. lia.
  - intros x Hx. unfold get_bit in Hx.
    destruct (Nat.lt_ge_cases x (num_nodes g)).
    + rewrite nth_repeat_lt in Hx by auto. discriminate.
    + rewrite nth_overflow in Hx by (rewrite repeat_length; lia). discriminate.
Qed.

Lemma dobfs_iter_ok (g : Graph) (source : nat) (alpha beta : Z) (st st' : bfs_state) :
  ctrl_ok g source st -> dobfs_iter g alpha beta st = Some st' -> ctrl_ok g source st'.
Proof.
  intros (Hs & Hc & Hq & Hf) E. pose proof Hs as (Hp & Hfl & Hcl).
  unfold dobfs_iter in E.
  destruct (edges_to_check st ÷ alpha <? scout_count st).
  - destruct (bu_loop (S (num_nodes g)) g beta (parent st)
                (QueueToBitmap (queue st) (front st)) (curr st)
                (Z.of_nat (length (queue st)))) as [[[[p' f'] c'] aw']|] eqn:Eb;
      [|discriminate].
    injection E as <-.
    set (I := fun (p : list Z) (f c : list bool) => length p = num_nodes g /\ length f = num_nodes g /\
                 length c = num_nodes g /\ parent_closed (num_nodes g) source p /\
                 bitmap_visited (num_nodes g) p f).
    assert (HI : I p' f' c').
    { refine (bu_loop_inv g beta I _ _ _ _ _ _ _ _ _ _ _ Eb).
      - intros p f c (L1 & L2 & L3 & C & B).
        pose proof (BUStep_closed g source p f c L1 ltac:(lia) C B) as H.
        pose proof (BUStep_claims g p f c ltac:(lia)) as H2.
        destruct (BUStep g p f c) as [[p1 n1] a1].
        destruct H as (_ & C1 & B1 & _). destruct H2 as ((Hl1 & _) & _ & Hn1).
        unfold I. refine (conj _ (conj _ (conj _ (conj C1 B1)))); lia.
      - unfold I. refine (conj Hp (conj _ (conj Hcl (conj Hc _)))).
        + rewrite length_QueueToBitmap; auto.
        + apply QueueToBitmap_visited; auto. }
    destruct HI as (L1 & L2 & L3 & C & B).
    refine (conj (conj L1 (conj L2 L3)) (conj C (conj _ B))).
    apply BitmapToQueue_visited; auto.
  - pose proof (TDStep_closed g source (parent st) (queue st) Hp Hc Hq) as H.
    pose proof (TDStep_spec g (parent st) (queue st)) as H2.
    pose proof (TDStep_nonneg g (parent st) (queue st)) as Hnn.
    destruct (TDStep g (parent st) (queue st)) as [[p' q'] sc].
    destruct H as (_ & C & Q). destruct H2 as ((Hl & _) & _).
    injection E as <-.
    refine (conj (conj _ (conj Hfl Hcl)) (conj C (conj Q _))); simpl; [lia|].
    apply (bitmap_visited_mono _ (parent st)); auto.
Qed.

(** ** Claim C10 *)

(** C10: after the initialisation [parent[source] = source], every
    non-negative entry [parent[u]] is a vertex id in [[0, num_nodes)] whose
    own entry is non-negative, and [parent[source] = source].  Each
    [TDStep] and [BUStep] writes only ids of vertices visited before the
    step (the frontier's) and preserves this; the two conversions keep the
    frontier made of visited vertices; so every state of the controller,
    and the result of [DOBFS], satisfies it. *)
Theorem parent_entries_closed (g : Graph) (source : nat) (alpha beta : Z) :
  ((source < num_nodes g)%nat -> ctrl_ok g source (dobfs_init g source)) /\
  (forall p q, length p = num_nodes g -> parent_closed (num_nodes g) source p ->
     list_visited (num_nodes g) p q ->
     let '(p', q', _) := TDStep g p q in
     writes_visited (num_nodes g) p p' /\ parent_closed (num_nodes g) source p' /\
     list_visited (num_nodes g) p' q') /\
  (forall p front next, length p = num_nodes g -> length next = num_nodes g ->
     parent_closed (num_nodes g) source p -> bitmap_visited (num_nodes g) p front ->
     let '(p', next', _) := BUStep g p front next in
     writes_visited (num_nodes g) p p' /\ parent_closed (num_nodes g) source p' /\
     bitmap_visited (num_nodes g) p' next' /\ bitmap_visited (num_nodes g) p' front) /\
  (forall p q bm, list_visited (num_nodes g) p q -> bitmap_visited (num_nodes g) p bm ->
     bitmap_visited (num_nodes g) p (QueueToBitmap q bm)) /\
  (forall p bm, bitmap_visited (num_nodes g) p bm ->
     list_visited (num_nodes g) p (BitmapToQueue g bm)) /\
  (forall st st', ctrl_ok g source st -> dobfs_iter g alpha beta st = Some st' ->
     ctrl_ok g source st') /\
  ((source < num_nodes g)%nat -> forall p, DOBFS g source alpha beta = Some p ->
     parent_closed (num_nodes g) source p).
Proof.
  split; [apply dobfs_init_ok|].
  split; [intros; apply TDStep_closed; auto|].
  split; [intros; apply BUStep_closed; auto; lia|].
  split; [apply QueueToBitmap_visited|].
  split; [apply BitmapToQueue_visited|].
  split; [intros; eapply dobfs_iter_ok; eauto|].
  intros Hs p E. unfold DOBFS in E.
  apply (dobfs_loop_inv g alpha beta (ctrl_ok g source)
           (parent_closed (num_nodes g) source)) with (4 := E).
  - intros st st' Hok _ Ei. eapply dobfs_iter_ok; eauto.
  - intros st (_ & C & _) _. exact C.
  - apply dobfs_init_ok; auto.
Qed.

(** ** Claim C4 *)

Lemma bu_continue_iff (g : Graph) (beta aw' aw : Z) :
  bu_continue g beta aw' aw = true <->
  (aw <= aw' \/ Z.of_nat (num_nodes g) ÷ beta < aw').
Proof.
  unfold bu_continue. rewrite orb_true_iff, Z.leb_le, Z.ltb_lt. tauto.
Qed.

Lemma bu_loop_dowhile (g : Graph) (beta : Z) (fuel : nat) (p : list Z)
    (front curr : list bool) (aw : Z) r :
  bu_loop fuel g beta p front curr aw = Some r ->
  bu_dowhile g beta (p, front, curr, aw) r.
Proof.
  revert p front curr aw. induction fuel as [|fuel IH]; intros p front curr aw E;
    simpl in E; [discriminate|].
  destruct (BUStep g p front curr) as [[p1 next1] aw1] eqn:Eb.
  destruct (bu_continue g beta aw1 aw) eqn:Hc.
  - apply bu_continue_iff in Hc. eapply bu_dowhile_more; eauto.
  - injection E as <-. apply bu_dowhile_stop; auto.
    rewrite <- bu_continue_iff, Hc. discriminate.
Qed.

(** C4: in a controller iteration with a non-empty frontier, the
    bottom-up phase runs exactly when [scout_count > edges_to_check / alpha]
    (truncated division): the queue is converted with [QueueToBitmap],
    [awake_count] starts at the queue's length, the rounds of [BUStep] and
    swap repeat while [awake_count >= old_awake_count] or
    [awake_count > num_nodes / beta], and the resulting front is converted
    back with [BitmapToQueue] while [scout_count] becomes 1; otherwise a
    top-down step runs. *)
Theorem dobfs_direction_switch (g : Graph) (alpha beta : Z) (st : bfs_state) :
  0 < beta -> queue st <> [] -> state_sizes g st ->
  (edges_to_check st ÷ alpha < scout_count st ->
   exists p' f' c' aw',
     bu_dowhile g beta
       (parent st, QueueToBitmap (queue st) (front st), curr st,
        Z.of_nat (length (queue st))) (p', f', c', aw') /\
     dobfs_iter g alpha beta st =
       Some (mkState p' (BitmapToQueue g f') c' f' (edges_to_check st) 1)) /\
  (~ (edges_to_check st ÷ alpha < scout_count st) ->
   dobfs_iter g alpha beta st =
     let '(p', q', scout') := TDStep g (parent st) (queue st) in
     Some (mkState p' q' (curr st) (front st)
             (edges_to_check st - scout_count st) scout')).
Proof.
  intros Hb Hq (Hp & Hf & Hc). split.
  - intros Hlt. unfold dobfs_iter. apply Z.ltb_lt in Hlt. rewrite Hlt.
    destruct (bu_loop_some g beta (S (num_nodes g)) (parent st)
                (QueueToBitmap (queue st) (front st)) (curr st)
                (Z.of_nat (length (queue st))))
      as (p' & f' & c' & aw' & E & _); auto.
    + rewrite length_QueueToBitmap; auto.
    + destruct (queue st); [congruence|simpl; lia].
    + pose proof (unvisited_le (parent st)); lia.
    + exists p', f', c', aw'. rewrite E. split; [|reflexivity].
      exact (bu_loop_dowhile _ _ _ _ _ _ _ _ E).
  - intros Hge. unfold dobfs_iter. apply Z.ltb_nlt in Hge. rewrite Hge.
    reflexivity.
Qed.

Lemma dobfs_direction_switch_witness :
  let st := dobfs_init g_path_undirected 0 in
  0 < 18 /\ queue st <> [] /\ state_sizes g_path_undirected st /\
  exists p' f' c' aw',
    bu_dowhile g_path_undirected 18
      (parent st, QueueToBitmap (queue st) (front st), curr st,
       Z.of_nat (length (queue st))) (p', f', c', aw') /\
    dobfs_iter g_path_undirected 15 18 st =
      Some (mkState p' (BitmapToQueue g_path_undirected f') c' f' (edges_to_check st) 1).
Proof.
  intros st.
  assert (Hb : 0 < 18) by lia.
  assert (Hq : queue st <> []) by discriminate.
  assert (Hs : state_sizes g_path_undirected st) by (repeat split).
  split; [exact Hb|]. split; [exact Hq|]. split; [exact Hs|].
  apply (dobfs_direction_switch g_path_undirected 15 18 st Hb Hq Hs).
  vm_compute. reflexivity.
Defined.

(** * The serial BFS of the verifier *)

Lemma nth_m1 (d : list Z) (x : nat) : (x < length d)%nat -> nth x d (-1) = pget d x.
Proof. intros H. unfold pget. apply nth_indep. exact H. Qed.

Lemma bfs_neigh_spec (du : Z) (vs : list nat) (d : list Z) (T : list nat) :
  0 <= du -> (forall v, In v vs -> (v < length d)%nat) ->
  (forall x, (x < length d)%nat -> pget d x = -1 \/ 0 <= pget d x) ->
  let '(d', T') := bfs_neigh du vs d T in
  exists L, T' = T ++ L /\ claims (fun x y => y = du + 1 /\ In x vs) d d' L /\
  (forall v, In v vs -> 0 <= pget d' v) /\
  (forall x, (x < length d')%nat -> pget d' x = -1 \/ 0 <= pget d' x).
Proof.
  revert d T. induction vs as [|v vs IH]; intros d T Hdu Hvs H1; simpl.
  - exists []. rewrite app_nil_r. split; [reflexivity|].
    split; [apply claims_refl|]. split; [tauto|exact H1].
  - assert (Hv : (v < length d)%nat) by (apply Hvs; left; reflexivity).
    rewrite (nth_m1 _ _ Hv).
    destruct (Z.eqb_spec (pget d v) (-1)) as [E|E].
    + set (d1 := set_nth v d (du + 1)).
      assert (C1 : claims (fun x y => y = du + 1 /\ In x (v :: vs)) d d1 [v]).
      { apply claims_one; [lia|lia|]. split; [reflexivity|left; reflexivity]. }
      assert (Hl1 : length d1 = length d) by apply length_set_nth.
      assert (Hd1v : pget d1 v = du + 1).
      { unfold d1. rewrite pget_set_nth, Nat.eqb_refl.
        destruct (Nat.ltb_spec v (length d)); lia. }
      specialize (IH d1 (T ++ [v]) Hdu).
      destruct (bfs_neigh du vs d1 (T ++ [v])) as [d' T'].
      destruct IH as (L & -> & C2 & Hall & H1').
      * intros w Hw. rewrite Hl1. apply Hvs; right; exact Hw.
      * intros x Hx. rewrite Hl1 in Hx. unfold d1. rewrite pget_set_nth.
        destruct (Nat.eqb_spec v x) as [<-|]; [|auto].
        destruct (Nat.ltb_spec v (length d)); lia.
      * exists (v :: L). split; [rewrite <- app_assoc; reflexivity|].
        split.
        { apply (claims_trans _ _ _ _ [v] L C1).
          apply (claims_mono (fun x y => y = du + 1 /\ In x vs)); [|exact C2].
          intros x y [Hy Hx]. split; [exact Hy|right; exact Hx]. }
        split; [|exact H1'].
        intros w [<-|Hw]; [|apply Hall; exact Hw].
        rewrite (claims_nonneg _ _ _ _ v C2); lia.
    + assert (Hge : 0 <= pget d v) by (destruct (H1 v Hv); lia).
      specialize (IH d T Hdu).
      destruct (bfs_neigh du vs d T) as [d' T'].
      destruct IH as (L & -> & C2 & Hall & H1');
        [intros w Hw; apply Hvs; right; exact Hw|exact H1|].
      exists L. split; [reflexivity|]. split.
      { apply (claims_mono (fun x y => y = du + 1 /\ In x vs)); [|exact C2].
        intros x y [Hy Hx]. split; [exact Hy|right; exact Hx]. }
      split; [|exact H1'].
      intros w [<-|Hw]; [|apply Hall; exact Hw].
      rewrite (claims_nonneg _ _ _ _ v C2); lia.
Qed.

Section SerialBFS.

Variable g : Graph.
Variable s : nat.
Hypothesis Hwf : forall u v, In v (neigh g u) -> (v < num_nodes g)%nat.
Hypothesis Hs : (s < num_nodes g)%nat.

(** Invariant of the FIFO loop: [todo] holds vertices of depth [k] followed
    by vertices of depth [k + 1], and a vertex no longer in [todo] has all its
    neighbours assigned. *)
Definition bfs_inv (d : list Z) (T : list nat) : Prop :=
  length d = num_nodes g /\
  (forall x, (x < num_nodes g)%nat -> pget d x = -1 \/ 0 <= pget d x) /\
  pget d s = 0 /\
  (forall v, (v < num_nodes g)%nat -> v <> s -> 0 <= pget d v ->
     exists u, (u < num_nodes g)%nat /\ In v (neigh g u) /\ 0 <= pget d u /\
       pget d u + 1 = pget d v) /\
  (forall u, (u < num_nodes g)%nat -> 0 <= pget d u -> ~ In u T ->
     forall v, In v (neigh g u) -> 0 <= pget d v <= pget d u + 1) /\
  NoDup T /\
  exists k A B, 0 <= k /\ T = A ++ B /\ (A = [] -> B = []) /\
    (forall x, In x A -> (x < num_nodes g)%nat /\ pget d x = k) /\
    (forall x, In x B -> (x < num_nodes g)%nat /\ pget d x = k + 1) /\
    (forall x, (x < num_nodes g)%nat -> 0 <= pget d x -> pget d x <= k + 1).

Lemma bfs_inv_step (d : list Z) (u : nat) (T : list nat) :
  bfs_inv d (u :: T) ->
  let '(d', T') := bfs_neigh (nth u d (-1)) (neigh g u) d T in
  bfs_inv d' T' /\ (length T' + unvisited d' < length (u :: T) + unvisited d)%nat.
Proof.
  intros (Hl & H1 & H2 & H3 & H4 & ND & k & A & B & Hk & ET & HAB & HA & HB & Hbd).
  destruct A as [|a A'].
  { rewrite HAB in ET by reflexivity. discriminate. }
  simpl in ET. injection ET as <- ET. subst T.
  destruct (HA u (or_introl eq_refl)) as [Hun Hdu].
  rewrite (nth_m1 d u ltac:(lia)), Hdu.
  pose proof (bfs_neigh_spec k (neigh g u) d (A' ++ B) Hk) as Hsp.
  destruct (bfs_neigh k (neigh g u) d (A' ++ B)) as [d' T'].
  destruct Hsp as (L & -> & C & Hall & H1').
  { intros v Hv. rewrite Hl. apply (Hwf u); exact Hv. }
  { intros x Hx. apply H1. lia. }
  pose proof (claims_unvisited _ _ _ _ C) as Hcnt.
  pose proof C as (Cl & CND & CM & CU & CP).
  assert (Old : forall x, 0 <= pget d x -> pget d' x = pget d x)
    by (intros x; apply (claims_nonneg _ _ _ _ x C)).
  assert (New : forall x, In x L ->
            (x < num_nodes g)%nat /\ pget d x < 0 /\ pget d' x = k + 1 /\ In x (neigh g u)).
  { intros x Hx. destruct (CP x Hx) as [E Hin]. apply CM in Hx as [Hx1 Hx2].
    pose proof (pget_neg_lt d x Hx1). split; [lia|]. auto. }
  assert (Tnn : forall x, In x (A' ++ B) -> (x < num_nodes g)%nat /\ 0 <= pget d x).
  { intros x Hx. apply in_app_or in Hx as [Hx|Hx].
    - destruct (HA x (or_intror Hx)); split; [auto|lia].
    - destruct (HB x Hx); split; [auto|lia]. }
  split.
  - split; [lia|]. split; [intros x Hx; apply H1'; lia|].
    split; [rewrite Old; lia|].
    split.
    { intros v Hv Hvs Hv0. destruct (in_dec Nat.eq_dec v L) as [Hin|Hin].
      - destruct (New v Hin) as (_ & _ & E & Hn). exists u.
        split; [exact Hun|]. split; [exact Hn|]. rewrite Old; lia.
      - rewrite (CU v Hin) in Hv0 |- *.
        destruct (H3 v Hv Hvs Hv0) as (w & Hw & Hn & Hw0 & E).
        exists w. rewrite Old by lia. auto. }
    split.
    { intros w Hw Hw0 Hnot v Hv.
      assert (HwL : ~ In w L) by (intros H; apply Hnot, in_or_app; right; exact H).
      rewrite (CU w HwL) in Hw0 |- *.
      assert (Hvn : (v < num_nodes g)%nat) by (apply (Hwf w); exact Hv).
      destruct (Nat.eq_dec w u) as [->|Hne].
      - rewrite Hdu. pose proof (Hall v Hv) as Hv0.
        destruct (in_dec Nat.eq_dec v L) as [HvL|HvL].
        + destruct (New v HvL) as (_ & _ & E & _). lia.
        + rewrite (CU v HvL) in Hv0 |- *. pose proof (Hbd v Hvn Hv0). lia.
      - assert (Hnot' : ~ In w (u :: A' ++ B)).
        { intros [H|H]; [congruence|]. apply Hnot, in_or_app; left; exact H. }
        pose proof (H4 w Hw Hw0 Hnot' v Hv) as Hb. rewrite Old; lia. }
    split.
    { apply NoDup_app; [apply NoDup_cons_iff in ND as [_ ND]; exact ND|exact CND|].
      intros x Hx HxL. apply Tnn in Hx. apply New in HxL. lia. }
    destruct A' as [|a' A''].
    + exists (k + 1), (B ++ L), []. split; [lia|].
      split; [rewrite app_nil_r; reflexivity|]. split; [reflexivity|].
      split; [|split; [intros x []|]].
      * intros x Hx. apply in_app_or in Hx as [Hx|Hx].
        -- destruct (HB x Hx) as [Hxn E]. rewrite Old; lia.
        -- destruct (New x Hx) as (? & _ & E & _). split; [auto|lia].
      * intros x Hx Hx0. destruct (in_dec Nat.eq_dec x L) as [HxL|HxL].
        -- destruct (New x HxL) as (_ & _ & E & _). lia.
        -- rewrite (CU x HxL) in Hx0 |- *. pose proof (Hbd x Hx Hx0). lia.
    + exists k, (a' :: A''), (B ++ L). split; [lia|].
      split; [rewrite app_assoc; reflexivity|]. split; [discriminate|].
      split; [|split].
      * intros x Hx. destruct (HA x (or_intror Hx)) as [Hxn E]. rewrite Old; lia.
      * intros x Hx. apply in_app_or in Hx as [Hx|Hx].
        -- destruct (HB x Hx) as [Hxn E]. rewrite Old; lia.
        -- destruct (New x Hx) as (? & _ & E & _). split; [auto|lia].
      * intros x Hx Hx0. destruct (in_dec Nat.eq_dec x L) as [HxL|HxL].
        -- destruct (New x HxL) as (_ & _ & E & _). lia.
        -- rewrite (CU x HxL) in Hx0 |- *. pose proof (Hbd x Hx Hx0). lia.
  - simpl. rewrite !length_app. lia.
Qed.

Lemma bfs_loop_inv (fuel : nat) (d : list Z) (T : list nat) :
  bfs_inv d T -> (length T + unvisited d <= fuel)%nat ->
  bfs_inv (bfs_loop fuel g d T) [].
Proof.
  revert d T. induction fuel as [|fuel IH]; intros d T HI Hf; simpl.
  - destruct T; [exact HI|simpl in Hf; lia].
  - destruct T as [|u T]; [exact HI|].
    pose proof (bfs_inv_step d u T HI) as H.
    destruct (bfs_neigh (nth u d (-1)) (neigh g u) d T) as [d' T'].
    destruct H as [HI' Hlt]. apply IH; auto. lia.
Qed.

Lemma bfs_inv_init :
  bfs_inv (set_nth s (repeat (-1) (num_nodes g)) 0) [s] /\
  (length [s] + unvisited (set_nth s (repeat (-1)%Z (num_nodes g)) 0%Z) <= num_nodes g)%nat.
Proof.
  set (d0 := set_nth s (repeat (-1) (num_nodes g)) 0).
  assert (Hr : forall x, (x < num_nodes g)%nat -> pget (repeat (-1) (num_nodes g)) x = -1).
  { intros x Hx. unfold pget. apply nth_repeat_lt. exact Hx. }
  assert (Hd : forall x, (x < num_nodes g)%nat -> pget d0 x = if Nat.eqb s x then 0 else -1).
  { intros x Hx. unfold d0. rewrite pget_set_nth, repeat_length.
    destruct (Nat.eqb_spec s x) as [<-|]; [|auto].
    destruct (Nat.ltb_spec s (num_nodes g)); lia. }
  assert (Hs0 : pget d0 s = 0) by (rewrite Hd, Nat.eqb_refl; auto).
  assert (Hnot : forall x, (x < num_nodes g)%nat -> x <> s -> pget d0 x = -1).
  { intros x Hx Hne. rewrite Hd by exact Hx.
    destruct (Nat.eqb_spec s x); [congruence|reflexivity]. }
  split.
  - split; [unfold d0; rewrite length_set_nth, repeat_length; reflexivity|].
    split.
    { intros x Hx. destruct (Nat.eq_dec x s) as [->|Hne]; [right; lia|left; auto]. }
    split; [exact Hs0|].
    split.
    { intros v Hv Hne Hv0. rewrite (Hnot v Hv Hne) in Hv0. lia. }
    split.
    { intros u Hu Hu0 Hin. destruct (Nat.eq_dec u s) as [->|Hne].
      - exfalso. apply Hin. left. reflexivity.
      - rewrite (Hnot u Hu Hne) in Hu0. lia. }
    split; [repeat constructor; intros []|].
    exists 0, [s], []. split; [lia|]. split; [reflexivity|]. split; [discriminate|].
    split; [intros x [<-|[]]; split; [exact Hs|exact Hs0]|].
    split; [intros x []|].
    intros x Hx Hx0. destruct (Nat.eq_dec x s) as [->|Hne]; [lia|].
    rewrite (Hnot x Hx Hne) in Hx0. lia.
  - assert (C : claims (fun _ _ => True) (repeat (-1) (num_nodes g)) d0 [s]).
    { apply claims_one; [rewrite Hr; [lia|exact Hs]|lia|exact I]. }
    pose proof (claims_unvisited _ _ _ _ C) as Hc.
    pose proof (unvisited_le (repeat (-1) (num_nodes g))) as Hle.
    rewrite repeat_length in Hle. simpl in Hc |- *. lia.
Qed.

Lemma bfs_depth_inv : bfs_inv (bfs_depth g s) [].
Proof.
  destruct bfs_inv_init as [HI Hf]. unfold bfs_depth.
  apply bfs_loop_inv; auto.
Qed.

(** Depth facts of the serial BFS, with [-1] read out of range. *)
Lemma bfs_depth_props :
  let D := bfs_depth g s in
  length D = num_nodes g /\ nth s D (-1) = 0 /\
  (forall v, 0 <= nth v D (-1) -> (v < num_nodes g)%nat) /\
  (forall u v, 0 <= nth u D (-1) -> In v (neigh g u) ->
     0 <= nth v D (-1) <= nth u D (-1) + 1) /\
  (forall v, v <> s -> 0 <= nth v D (-1) ->
     exists u, In v (neigh g u) /\ 0 <= nth u D (-1) /\ nth u D (-1) + 1 = nth v D (-1)).
Proof.
  intros D. destruct bfs_depth_inv as (Hl & H1 & H2 & H3 & H4 & _).
  fold D in Hl, H1, H2, H3, H4.
  assert (Hr : forall v, 0 <= nth v D (-1) -> (v < num_nodes g)%nat).
  { intros v Hv. destruct (Nat.lt_ge_cases v (num_nodes g)) as [|Hge]; auto.
    rewrite nth_overflow in Hv by lia. lia. }
  assert (Hm : forall v, (v < num_nodes g)%nat -> nth v D (-1) = pget D v)
    by (intros v Hv; apply nth_m1; lia).
  split; [exact Hl|]. split; [rewrite Hm; auto|]. split; [exact Hr|]. split.
  - intros u v Hu Hv. pose proof (Hr u Hu) as Hun. pose proof (Hwf u v Hv) as Hvn.
    rewrite Hm in Hu |- * by auto. rewrite Hm by auto.
    apply (H4 u Hun Hu (fun H => H) v Hv).
  - intros v Hne Hv. pose proof (Hr v Hv) as Hvn. rewrite Hm in Hv |- * by auto.
    destruct (H3 v Hvn Hne Hv) as (u & Hun & Hin & Hu0 & E).
    exists u. rewrite Hm by auto. auto.
Qed.

End SerialBFS.

(** * Forest validity *)

Lemma neigh_lt (g : Graph) (u x : nat) : In x (neigh g u) -> (u < num_nodes g)%nat.
Proof.
  unfold neigh, num_nodes. intros H.
  destruct (Nat.lt_ge_cases u (length g)) as [|Hge]; auto.
  rewrite nth_overflow in H by lia. destruct H.
Qed.

Lemma symmetric_wf (g : Graph) :
  symmetric g -> forall u v, In v (neigh g u) -> (v < num_nodes g)%nat.
Proof. intros Hsym u v H. apply (neigh_lt g v u). apply Hsym. exact H. Qed.

Lemma bu_loop_inv2 (g : Graph) (beta : Z)
    (I J : list Z -> list bool -> list bool -> Prop) :
  (forall p front curr, I p front curr ->
     let '(p', next', _) := BUStep g p front curr in J p' next' front) ->
  (forall p front curr, J p front curr -> I p front curr) ->
  forall fuel p front curr aw p' f' c' aw',
  I p front curr -> bu_loop fuel g beta p front curr aw = Some (p', f', c', aw') ->
  J p' f' c'.
Proof.
  intros Hstep HJI fuel. induction fuel as [|fuel IH];
    intros p front curr aw p' f' c' aw' HI E; simpl in E; [discriminate|].
  specialize (Hstep p front curr HI).
  destruct (BUStep g p front curr) as [[p1 next1] aw1].
  destruct (bu_continue g beta aw1 aw).
  - exact (IH _ _ _ _ _ _ _ _ (HJI _ _ _ Hstep) E).
  - injection E as <- <- <- _. exact Hstep.
Qed.

Section Levels.

Variable g : Graph.
Variable source : nat.
Hypothesis Hsym : symmetric g.
Hypothesis Hsrc : (source < num_nodes g)%nat.

Definition dep (v : nat) : Z := nth v (bfs_depth g source) (-1).

Lemma dep_facts :
  (forall v, 0 <= dep v -> (v < num_nodes g)%nat) /\ dep source = 0 /\
  (forall u v, 0 <= dep u -> In v (neigh g u) -> 0 <= dep v <= dep u + 1) /\
  (forall v, v <> source -> 0 <= dep v ->
     exists u, In v (neigh g u) /\ 0 <= dep u /\ dep u + 1 = dep v).
Proof.
  destruct (bfs_depth_props g source (symmetric_wf g Hsym) Hsrc)
    as (_ & H1 & H2 & H3 & H4).
  unfold dep. auto.
Qed.

Lemma dep_lt (v : nat) : 0 <= dep v -> (v < num_nodes g)%nat.
Proof. apply dep_facts. Qed.

Lemma dep_source : dep source = 0.
Proof. apply dep_facts. Qed.

Lemma dep_close (u v : nat) : 0 <= dep u -> In v (neigh g u) -> 0 <= dep v <= dep u + 1.
Proof. apply dep_facts. Qed.

Lemma dep_pred (v : nat) : v <> source -> 0 <= dep v ->
  exists u, In v (neigh g u) /\ 0 <= dep u /\ dep u + 1 = dep v.
Proof. apply dep_facts. Qed.

Lemma dep_zero (v : nat) : dep v = 0 -> v = source.
Proof.
  intros H. destruct (Nat.eq_dec v source) as [|Hne]; auto.
  destruct (dep_pred v Hne ltac:(lia)) as (u & _ & Hu & E). lia.
Qed.

Lemma dep_levels (m : nat) (v : nat) (j : Z) :
  Z.to_nat (dep v) = m -> 0 <= j <= dep v -> exists w, dep w = j.
Proof.
  revert v. induction m as [|m IH]; intros v Hm Hj.
  - exists v. lia.
  - destruct (Z.eq_dec j (dep v)) as [E|Hne]; [exists v; auto|].
    assert (Hvs : v <> source) by (intros ->; rewrite dep_source in Hj, Hne; lia).
    destruct (dep_pred v Hvs ltac:(lia)) as (u & _ & Hu & E).
    apply (IH u); lia.
Qed.

(** The parent array after the level-[k] frontier has been expanded:
    visited exactly the vertices of depth at most [k]. *)
Definition pinv (k : Z) (p : list Z) : Prop :=
  0 <= k /\ length p = num_nodes g /\
  (forall u, (u < num_nodes g)%nat -> 0 <= pget p u <-> 0 <= dep u <= k) /\
  (forall u, (u < num_nodes g)%nat -> pget p u < 0 -> pget p u = pget (InitParent g) u) /\
  pget p source = Z.of_nat source /\
  (forall u, (u < num_nodes g)%nat -> u <> source -> 0 <= pget p u ->
     exists w, pget p u = Z.of_nat w /\ In u (neigh g w) /\ dep u = dep w + 1).

Lemma pinv_claims (P : nat -> Z -> Prop) (k : Z) (p p' : list Z) (L : list nat) :
  pinv k p -> claims P p p' L ->
  (forall x, In x L <-> (x < num_nodes g)%nat /\ dep x = k + 1) ->
  (forall x y, In x L -> P x y ->
     exists w, y = Z.of_nat w /\ In x (neigh g w) /\ dep x = dep w + 1) ->
  pinv (k + 1) p'.
Proof.
  intros (Hk & Hl & Hv & Hi & Hs & Hp) C HL HP.
  pose proof C as (Cl & _ & CM & CU & CP).
  assert (HLnn : forall x, In x L -> 0 <= pget p' x) by (intros x Hx; apply CM in Hx; lia).
  split; [lia|]. split; [lia|]. split; [|split; [|split]].
  - intros u Hu. destruct (in_dec Nat.eq_dec u L) as [HuL|HuL].
    + pose proof (HLnn u HuL). apply HL in HuL. lia.
    + rewrite (CU u HuL), Hv by exact Hu.
      split; [lia|]. intros Hd. destruct (Z.eq_dec (dep u) (k + 1)) as [E|E]; [|lia].
      exfalso. apply HuL. apply HL. auto.
  - intros u Hu Hneg. assert (HuL : ~ In u L) by (intros H; apply HLnn in H; lia).
    rewrite (CU u HuL) in Hneg |- *. auto.
  - rewrite (claims_nonneg _ _ _ _ source C); lia.
  - intros u Hu Hne Hu0. destruct (in_dec Nat.eq_dec u L) as [HuL|HuL].
    + exact (HP u _ HuL (CP u HuL)).
    + rewrite (CU u HuL) in Hu0 |- *. auto.
Qed.

Lemma pinv_unvisited (k : Z) (p : list Z) (x : nat) :
  pinv k p -> (x < num_nodes g)%nat -> dep x = k + 1 -> pget p x < 0.
Proof.
  intros (Hk & _ & Hv & _) Hx Hd.
  destruct (Z_lt_le_dec (pget p x) 0) as [|H]; auto.
  apply (Hv x Hx) in H. lia.
Qed.

Lemma TDStep_level (k : Z) (p : list Z) (q : list nat) :
  pinv k p -> (forall x, In x q <-> (x < num_nodes g)%nat /\ dep x = k) ->
  let '(p', q', _) := TDStep g p q in
  pinv (k + 1) p' /\ (forall x, In x q' <-> (x < num_nodes g)%nat /\ dep x = k + 1).
Proof.
  intros Hpi Hq. pose proof Hpi as (Hk & Hl & Hv & _).
  pose proof (TDStep_spec g p q) as H.
  destruct (TDStep g p q) as [[p' q'] sc]. destruct H as (C & _ & Hcomp).
  pose proof C as (Cl & _ & CM & CU & CP).
  assert (Key : forall x, In x q' <-> (x < num_nodes g)%nat /\ dep x = k + 1).
  { intros x. split.
    - intros Hx. pose proof Hx as Hx'. apply CM in Hx' as [Hneg _].
      pose proof (pget_neg_lt p x Hneg) as Hxn.
      destruct (CP x Hx) as (u & Hu & _ & Hin). apply Hq in Hu as [_ Hdu].
      pose proof (dep_close u x ltac:(lia) Hin) as Hd.
      assert (Hnv : ~ (0 <= dep x <= k)) by (intros H; apply (Hv x ltac:(lia)) in H; lia).
      split; [lia|lia].
    - intros [Hxn Hd]. apply CM. pose proof (pinv_unvisited k p x Hpi Hxn Hd) as Hneg.
      split; [exact Hneg|].
      assert (Hxs : x <> source) by (intros ->; rewrite dep_source in Hd; lia).
      destruct (dep_pred x Hxs ltac:(lia)) as (u & Hin & Hu0 & E).
      apply (Hcomp u x); auto. apply Hq. split; [apply dep_lt; lia|lia]. }
  split; [|exact Key].
  apply (pinv_claims _ k p p' q' Hpi C Key).
  intros x y Hx (u & Hu & -> & Hin). exists u. split; [reflexivity|]. split; [exact Hin|].
  apply Hq in Hu as [_ Hdu]. apply Key in Hx as [_ Hdx]. lia.
Qed.

Lemma BUStep_level (k : Z) (p : list Z) (front next : list bool) :
  pinv k p -> length next = num_nodes g ->
  (forall x, get_bit front x = true -> (x < num_nodes g)%nat /\ 0 <= dep x <= k) ->
  (forall x, (x < num_nodes g)%nat -> dep x = k -> get_bit front x = true) ->
  let '(p', next', _) := BUStep g p front next in
  pinv (k + 1) p' /\ length next' = num_nodes g /\
  (forall x, get_bit next' x = true <-> (x < num_nodes g)%nat /\ dep x = k + 1).
Proof.
  intros Hpi Hn Hf1 Hf2. pose proof Hpi as (Hk & Hl & Hv & _).
  pose proof (BUStep_spec g p front next ltac:(lia)) as Hsp.
  pose proof (BUStep_claims g p front next ltac:(lia)) as H.
  destruct (BUStep g p front next) as [[p' next'] aw].
  destruct H as (C & _ & Hl'). destruct Hsp as (_ & _ & Hcl & _).
  pose proof C as (Cl & _ & CM & CU & CP).
  set (L := BitmapToQueue g next') in *.
  assert (Par : forall x v, In x L -> find_front front (neigh g x) = Some v ->
            In x (neigh g v) /\ dep x = dep v + 1 /\ dep x = k + 1).
  { intros x v Hx Hf. pose proof Hx as Hx'. apply CM in Hx' as [Hneg _].
    pose proof (pget_neg_lt p x Hneg) as Hxn.
    destruct (find_front_some _ _ _ Hf) as (pre & post & Hdec & _ & Hb).
    assert (Hin : In v (neigh g x)) by (rewrite Hdec; apply in_or_app; right; left; auto).
    apply Hsym in Hin. apply Hf1 in Hb as [Hvn Hdv].
    pose proof (dep_close v x ltac:(lia) Hin) as Hd.
    assert (Hnv : ~ (0 <= dep x <= k)) by (intros H; apply (Hv x ltac:(lia)) in H; lia).
    split; [exact Hin|]. lia. }
  assert (Key : forall x, In x L <-> (x < num_nodes g)%nat /\ dep x = k + 1).
  { intros x. split.
    - intros Hx. pose proof Hx as Hx'. apply CM in Hx' as [Hneg _].
      pose proof (pget_neg_lt p x Hneg) as Hxn.
      destruct (CP x Hx) as (v & Hf & _).
      destruct (Par x v Hx Hf) as (_ & _ & Hd). split; [lia|exact Hd].
    - intros [Hxn Hd]. apply CM. pose proof (pinv_unvisited k p x Hpi Hxn Hd) as Hneg.
      split; [exact Hneg|].
      assert (Hxs : x <> source) by (intros ->; rewrite dep_source in Hd; lia).
      destruct (dep_pred x Hxs ltac:(lia)) as (u & Hin & Hu0 & E).
      apply Hsym in Hin.
      destruct (find_front front (neigh g x)) as [v|] eqn:Hf.
      + destruct (Hcl x v Hxn Hneg Hf) as [E' _]. lia.
      + pose proof (find_front_none _ _ Hf u Hin) as Hb.
        rewrite (Hf2 u (dep_lt u ltac:(lia)) ltac:(lia)) in Hb. discriminate. }
  split; [|split; [lia|]].
  - apply (pinv_claims _ k p p' L Hpi C Key).
    intros x y Hx (v & Hf & ->). exists v. split; [reflexivity|].
    destruct (Par x v Hx Hf) as (Hin & E & _). auto.
  - intros x. rewrite <- Key. unfold L. rewrite In_BitmapToQueue.
    split; [intros Hb; split; [|exact Hb]|intros [_ Hb]; exact Hb].
    apply get_bit_lt in Hb. lia.
Qed.

(** Controller states at level [k]: the queue is the level-[k] set and the
    front bitmap holds only vertices of depth at most [k] ([QueueToBitmap]
    does not clear it). *)
Definition cinv (st : bfs_state) : Prop :=
  exists k, state_sizes g st /\ pinv k (parent st) /\
  (forall x, In x (queue st) <-> (x < num_nodes g)%nat /\ dep x = k) /\
  (forall x, get_bit (front st) x = true -> (x < num_nodes g)%nat /\ 0 <= dep x <= k).

Lemma dobfs_iter_level (alpha beta : Z) (st st' : bfs_state) :
  cinv st -> dobfs_iter g alpha beta st = Some st' -> cinv st'.
Proof.
  intros (k & (Hp & Hf & Hc) & Hpi & Hq & Hfr) E. unfold dobfs_iter in E.
  destruct (edges_to_check st ÷ alpha <? scout_count st).
  - set (I := fun (p : list Z) (front curr : list bool) => exists k, pinv k p /\
                length front = num_nodes g /\ length curr = num_nodes g /\
                (forall x, get_bit front x = true ->
                   (x < num_nodes g)%nat /\ 0 <= dep x <= k) /\
                (forall x, (x < num_nodes g)%nat -> dep x = k -> get_bit front x = true)).
    set (J := fun (p : list Z) (front curr : list bool) => exists k, pinv k p /\
                length front = num_nodes g /\ length curr = num_nodes g /\
                (forall x, get_bit front x = true <-> (x < num_nodes g)%nat /\ dep x = k)).
    destruct (bu_loop (S (num_nodes g)) g beta (parent st)
                (QueueToBitmap (queue st) (front st)) (curr st)
                (Z.of_nat (length (queue st)))) as [[[[p' f'] c'] aw']|] eqn:Eb;
      [|discriminate].
    injection E as <-.
    assert (HJ : J p' f' c').
    { refine (bu_loop_inv2 g beta I J _ _ _ _ _ _ _ _ _ _ _ _ Eb).
      - intros p front curr (k1 & Hpi1 & Hl1 & Hl2 & Hb1 & Hb2).
        pose proof (BUStep_level k1 p front curr Hpi1 Hl2 Hb1 Hb2) as H.
        destruct (BUStep g p front curr) as [[p1 next1] aw1].
        destruct H as (Hpi2 & Hn2 & Hb). exists (k1 + 1). auto.
      - intros p front curr (k1 & Hpi1 & Hl1 & Hl2 & Hb).
        exists k1. split; [exact Hpi1|]. split; [exact Hl1|]. split; [exact Hl2|].
        pose proof Hpi1 as (Hk1 & _).
        split; [intros x Hx; apply Hb in Hx; lia|].
        intros x Hx Hd. apply Hb. auto.
      - exists k. split; [exact Hpi|].
        split; [rewrite length_QueueToBitmap; exact Hf|]. split; [exact Hc|].
        split.
        + intros x Hx. apply get_bit_QueueToBitmap in Hx as [[_ Hx]|Hx].
          * apply Hq in Hx. pose proof Hpi as (Hk & _). lia.
          * auto.
        + intros x Hx Hd. apply get_bit_QueueToBitmap. left.
          split; [lia|]. apply Hq. auto. }
    destruct HJ as (k1 & Hpi1 & Hl1 & Hl2 & Hb).
    exists k1. simpl. pose proof Hpi1 as (Hk1 & Hlp & _).
    split; [split; [exact Hlp|split; auto]|]. split; [exact Hpi1|]. split.
    + intros x. rewrite In_BitmapToQueue, Hb. tauto.
    + intros x Hx. apply Hb in Hx. lia.
  - pose proof (TDStep_level k (parent st) (queue st) Hpi Hq) as H.
    destruct (TDStep g (parent st) (queue st)) as [[p' q'] sc].
    injection E as <-. destruct H as (Hpi' & Hq').
    exists (k + 1). simpl. pose proof Hpi' as (_ & Hlp & _).
    split; [split; auto|]. split; [exact Hpi'|]. split; [exact Hq'|].
    intros x Hx. apply Hfr in Hx. lia.
Qed.

Lemma dobfs_init_level : cinv (dobfs_init g source).
Proof.
  set (p0 := set_nth source (InitParent g) (Z.of_nat source)).
  assert (Hl : length (InitParent g) = num_nodes g) by apply length_InitParent.
  assert (Hp0 : forall u, (u < num_nodes g)%nat ->
            pget p0 u = if Nat.eqb source u then Z.of_nat source else pget (InitParent g) u).
  { intros u Hu. unfold p0. rewrite pget_set_nth, Hl.
    destruct (Nat.eqb_spec source u) as [<-|]; auto.
    destruct (Nat.ltb_spec source (num_nodes g)); lia. }
  assert (Hother : forall u, (u < num_nodes g)%nat -> u <> source ->
            pget p0 u = pget (InitParent g) u /\ pget p0 u < 0).
  { intros u Hu Hne. rewrite Hp0 by exact Hu.
    destruct (Nat.eqb_spec source u); [congruence|].
    split; [reflexivity|apply InitParent_neg; exact Hu]. }
  assert (Hs0 : pget p0 source = Z.of_nat source) by (rewrite Hp0, Nat.eqb_refl; auto).
  exists 0. split; [apply dobfs_init_sizes|]. simpl. fold p0.
  split; [|split].
  - split; [lia|]. split; [unfold p0; rewrite length_set_nth; exact Hl|].
    split; [|split; [|split]].
    + intros u Hu. destruct (Nat.eq_dec u source) as [->|Hne].
      * rewrite Hs0, dep_source. lia.
      * destruct (Hother u Hu Hne) as [_ Hneg]. split; [lia|].
        intros Hd. exfalso. apply Hne. apply dep_zero. lia.
    + intros u Hu Hneg. destruct (Nat.eq_dec u source) as [->|Hne]; [lia|].
      apply (Hother u Hu Hne).
    + exact Hs0.
    + intros u Hu Hne Hu0. destruct (Hother u Hu Hne). lia.
  - intros x. split.
    + intros [<-|[]]. split; [exact Hsrc|apply dep_source].
    + intros [_ Hd]. left. symmetry. apply dep_zero. exact Hd.
  - intros x Hx. unfold get_bit in Hx.
    destruct (Nat.lt_ge_cases x (num_nodes g)).
    + rewrite nth_repeat_lt in Hx by auto. discriminate.
    + rewrite nth_overflow in Hx by (rewrite repeat_length; lia). discriminate.
Qed.

Lemma cinv_final (st : bfs_state) :
  cinv st -> queue st = [] -> valid_bfs_forest g source (parent st).
Proof.
  intros (k & _ & Hpi & Hq & _) Hnil. rewrite Hnil in Hq.
  destruct Hpi as (Hk & Hl & Hv & Hi & Hs & Hp).
  assert (Hle : forall u, 0 <= dep u -> dep u <= k).
  { intros u Hu. destruct (Z_le_gt_dec (dep u) k) as [|Hgt]; auto.
    destruct (dep_levels (Z.to_nat (dep u)) u k eq_refl ltac:(lia)) as (w & Hw).
    exfalso. apply (Hq w). split; [apply dep_lt; lia|exact Hw]. }
  split; [exact Hs|]. split; [|split].
  - intros u Hu Hd. apply Hv; auto.
  - intros u Hu Hne Hd. apply Hp; auto. apply Hv; auto.
  - intros u Hu Hd. apply Hi; auto.
    destruct (Z_lt_le_dec (pget (parent st) u) 0) as [|H]; auto.
    apply (Hv u Hu) in H. unfold dep in H. lia.
Qed.

End Levels.

Lemma DOBFS_some (g : Graph) (source : nat) (alpha beta : Z) :
  (source < num_nodes g)%nat -> 0 < beta -> exists p, DOBFS g source alpha beta = Some p.
Proof.
  intros Hs Hb. unfold DOBFS. apply dobfs_loop_some; auto using dobfs_init_sizes.
  pose proof (unvisited_le (parent (dobfs_init g source))) as H.
  unfold dobfs_init in *; simpl in *.
  rewrite length_set_nth, length_InitParent in H. lia.
Qed.

(** ** Claim C1 *)

(** C1 (counterexample): on the directed graph [g_back] with source 0,
    [DOBFS] returns [[0; -1; 0]]: vertex 1, reachable at depth 1, is
    never claimed (the bottom-up step scans out-neighbours), and the
    unreachable vertex 2 gets parent 0. *)
Lemma DOBFS_directed_not_forest :
  exists p, DOBFS g_back 0 15 18 = Some p /\ ~ valid_bfs_forest g_back 0 p.
Proof.
  exists [0; -1; 0]. split; [vm_compute; reflexivity|].
  intros (_ & H & _).
  assert (H1 : 0 <= pget [0; -1; 0] 1).
  { apply H; [unfold num_nodes, g_back; simpl; lia|vm_compute; congruence]. }
  vm_compute in H1. apply H1. reflexivity.
Qed.

(** C1 (amended): for a graph with symmetric neighbour lists (undirected),
    an in-range source and positive [alpha] and [beta], [DOBFS] returns a
    parent array that is a valid BFS spanning forest: the source is its own
    parent, every vertex reached by the serial BFS has a non-negative entry,
    for every reached [u <> source] there is an edge [parent[u] -> u] with
    [depth(u) = depth(parent[u]) + 1], and every unreached vertex keeps its
    [InitParent] encoding. *)
Theorem DOBFS_valid_forest_symmetric (g : Graph) (source : nat) (alpha beta : Z) :
  symmetric g -> (source < num_nodes g)%nat -> 0 < alpha -> 0 < beta ->
  exists p, DOBFS g source alpha beta = Some p /\ valid_bfs_forest g source p.
Proof.
  intros Hsym Hs _ Hb. destruct (DOBFS_some g source alpha beta Hs Hb) as [p E].
  exists p. split; [exact E|]. unfold DOBFS in E.
  apply (dobfs_loop_inv g alpha beta (cinv g source) (valid_bfs_forest g source))
    with (4 := E).
  - intros st st' HI _ Ei. exact (dobfs_iter_level g source Hsym Hs alpha beta st st' HI Ei).
  - intros st HI Hq. exact (cinv_final g source Hsym Hs st HI Hq).
  - exact (dobfs_init_level g source Hsym Hs).
Qed.

Lemma DOBFS_valid_forest_symmetric_witness :
  symmetric g_path_undirected /\ (0 < num_nodes g_path_undirected)%nat /\
  0 < 15 /\ 0 < 18 /\
  exists p, DOBFS g_path_undirected 0 15 18 = Some p /\
    valid_bfs_forest g_path_undirected 0 p.
Proof.
  assert (Hsym : symmetric g_path_undirected).
  { intros u v H.
    destruct u as [|[|[|[|u]]]]; simpl in H;
      [| | | |destruct u; simpl in H; destruct H];
      repeat (destruct H as [<-|H]; [simpl; tauto|]); destruct H. }
  assert (Hn : (0 < num_nodes g_path_undirected)%nat) by (simpl; lia).
  assert (Ha : 0 < 15) by lia.
  assert (Hb : 0 < 18) by lia.
  split; [exact Hsym|]. split; [exact Hn|]. split; [exact Ha|]. split; [exact Hb|].
  exact (DOBFS_valid_forest_symmetric g_path_undirected 0 15 18 Hsym Hn Ha Hb).
Defined.

(** * Further properties of the code *)

Lemma g_path_undirected_symmetric : symmetric g_path_undirected.
Proof.
  intros u v H.
  destruct u as [|[|[|[|u]]]]; simpl in H;
    [| | | |destruct u; simpl in H; destruct H];
    repeat (destruct H as [<-|H]; [simpl; tauto|]); destruct H.
Qed.

Lemma walk_snoc (g : Graph) (u v w : nat) (k : nat) :
  walk g u v k -> In w (neigh g v) -> walk g u w (S k).
Proof.
  induction 1 as [u|u v' v k Hin Hw IH]; intros H.
  - apply walk_cons with w; [exact H|constructor].
  - apply walk_cons with v'; auto.
Qed.

Section DepthWalks.

Variable g : Graph.
Variable s : nat.
Hypothesis Hwf : forall u v, In v (neigh g u) -> (v < num_nodes g)%nat.
Hypothesis Hs : (s < num_nodes g)%nat.

Lemma bfs_depth_walk_bound (u w : nat) (k : nat) :
  walk g u w k -> 0 <= nth u (bfs_depth g s) (-1) ->
  0 <= nth w (bfs_depth g s) (-1) <= nth u (bfs_depth g s) (-1) + Z.of_nat k.
Proof.
  destruct (bfs_depth_props g s Hwf Hs) as (_ & _ & _ & Hc & _).
  induction 1 as [u|u v w k Hin Hw IH]; intros Hu; [lia|].
  pose proof (Hc u v Hu Hin) as H. specialize (IH ltac:(lia)). lia.
Qed.

Lemma bfs_depth_walk_exists (m : nat) (v : nat) :
  Z.to_nat (nth v (bfs_depth g s) (-1)) = m -> 0 <= nth v (bfs_depth g s) (-1) ->
  walk g s v m.
Proof.
  destruct (bfs_depth_props g s Hwf Hs) as (_ & Hs0 & _ & _ & Hp).
  revert v. induction m as [|m IH]; intros v Hm Hv.
  - destruct (Nat.eq_dec v s) as [->|Hne]; [constructor|].
    destruct (Hp v Hne Hv) as (u & _ & Hu & E). lia.
  - assert (Hne : v <> s) by (intros ->; rewrite Hs0 in Hm; discriminate).
    destruct (Hp v Hne Hv) as (u & Hin & Hu & E).
    apply walk_snoc with u; [|exact Hin]. apply IH; [lia|exact Hu].
Qed.

Lemma bfs_depth_unreached (v : nat) :
  nth v (bfs_depth g s) (-1) < 0 -> nth v (bfs_depth g s) (-1) = -1.
Proof.
  destruct (bfs_depth_inv g s Hwf Hs) as (Hl & H1 & _).
  intros Hv. destruct (Nat.lt_ge_cases v (num_nodes g)) as [Hlt|Hge].
  - rewrite nth_m1 in * by lia. destruct (H1 v Hlt); lia.
  - apply nth_overflow. lia.
Qed.

End DepthWalks.

(** The depth array of [BFSVerifier]'s serial BFS is the hop distance:
    on a graph whose neighbour ids are in range, with an in-range source,
    a vertex with depth [d >= 0] is reached from the source along [d]
    edges, every walk from the source to it has at least [d] edges, and a
    vertex no walk reaches has depth exactly [-1]. *)
Theorem bfs_depth_is_distance (g : Graph) (s : nat) :
  (forall u v, In v (neigh g u) -> (v < num_nodes g)%nat) ->
  (s < num_nodes g)%nat ->
  forall v,
    (0 <= nth v (bfs_depth g s) (-1) -> walk g s v (Z.to_nat (nth v (bfs_depth g s) (-1)))) /\
    (forall k, walk g s v k -> 0 <= nth v (bfs_depth g s) (-1) <= Z.of_nat k) /\
    (nth v (bfs_depth g s) (-1) < 0 -> nth v (bfs_depth g s) (-1) = -1).
Proof.
  intros Hwf Hs v. split; [|split].
  - intros Hv. apply (bfs_depth_walk_exists g s Hwf Hs _ v eq_refl Hv).
  - intros k Hw.
    destruct (bfs_depth_props g s Hwf Hs) as (_ & Hs0 & _).
    pose proof (bfs_depth_walk_bound g s Hwf Hs s v k Hw ltac:(lia)). lia.
  - apply (bfs_depth_unreached g s Hwf Hs).
Qed.

Lemma bfs_depth_is_distance_witness :
  (forall u v, In v (neigh g_path_undirected u) -> (v < num_nodes g_path_undirected)%nat) /\
  (0 < num_nodes g_path_undirected)%nat /\
  (0 <= nth 3 (bfs_depth g_path_undirected 0) (-1) ->
     walk g_path_undirected 0 3 (Z.to_nat (nth 3 (bfs_depth g_path_undirected 0) (-1)))) /\
  (forall k, walk g_path_undirected 0 3 k ->
     0 <= nth 3 (bfs_depth g_path_undirected 0) (-1) <= Z.of_nat k) /\
  (nth 3 (bfs_depth g_path_undirected 0) (-1) < 0 ->
     nth 3 (bfs_depth g_path_undirected 0) (-1) = -1).
Proof.
  assert (Hwf : forall u v, In v (neigh g_path_undirected u) ->
                  (v < num_nodes g_path_undirected)%nat)
    by (apply symmetric_wf, g_path_undirected_symmetric).
  assert (Hn : (0 < num_nodes g_path_undirected)%nat) by (simpl; lia).
  split; [exact Hwf|]. split; [exact Hn|].
  exact (bfs_depth_is_distance g_path_undirected 0 Hwf Hn 3).
Defined.

(** ** The checks of [BFSVerifier] *)

Lemma find_parent_spec (depth : list Z) (du pu : Z) (vs : list nat) :
  find_parent depth du pu vs =
  if existsb (fun v => Z.of_nat v =? pu) vs
  then Some (nth (Z.to_nat pu) depth (-1) =? du - 1) else None.
Proof.
  induction vs as [|v vs IH]; simpl; auto.
  destruct (Z.eqb_spec (Z.of_nat v) pu) as [<-|]; auto.
  rewrite Nat2Z.id. reflexivity.
Qed.

(** The test [BFSVerifier] applies to one vertex; [true] is [continue]. *)
Definition verify_ok (g : Graph) (source : nat) (parent depth : list Z) (u : nat) : bool :=
  let du := nth u depth (-1) in
  let pu := pget parent u in
  if negb (du =? -1) && negb (pu =? -1) then
    if Nat.eqb u source then (pu =? Z.of_nat u) && (du =? 0)
    else match find_parent depth du pu (neigh g u) with
         | Some true => true
         | _ => false
         end
  else du =? pu.

Lemma verify_vertices_forallb (g : Graph) (source : nat) (parent depth : list Z)
    (us : list nat) :
  verify_vertices g source parent depth us = forallb (verify_ok g source parent depth) us.
Proof.
  induction us as [|u us IH]; simpl; auto.
  unfold verify_ok. rewrite IH.
  destruct (negb (nth u depth (-1) =? -1) && negb (pget parent u =? -1)).
  - destruct (Nat.eqb u source).
    + destruct ((pget parent u =? Z.of_nat u) && (nth u depth (-1) =? 0)); auto.
    + destruct (find_parent depth (nth u depth (-1)) (pget parent u) (neigh g u))
        as [[|]|]; auto.
  - destruct (negb (nth u depth (-1) =? pget parent u)) eqn:E;
      destruct (nth u depth (-1) =? pget parent u); simpl in *; auto; discriminate.
Qed.

Lemma verify_ok_iff (g : Graph) (s : nat) (p : list Z) (u : nat) :
  (forall u v, In v (neigh g u) -> (v < num_nodes g)%nat) -> (s < num_nodes g)%nat ->
  let d := fun v => nth v (bfs_depth g s) (-1) in
  verify_ok g s p (bfs_depth g s) u = true <->
  (0 <= d u -> (u = s -> pget p u = Z.of_nat s) /\
     (u <> s -> exists w, pget p u = Z.of_nat w /\ In w (neigh g u) /\ d w + 1 = d u)) /\
  (d u < 0 -> pget p u = -1).
Proof.
  intros Hwf Hs d.
  destruct (bfs_depth_props g s Hwf Hs) as (_ & Hs0 & _).
  assert (Hcase : d u = -1 \/ 0 <= d u).
  { destruct (Z_lt_le_dec (d u) 0) as [H|H]; [left|right; exact H].
    apply (bfs_depth_unreached g s Hwf Hs); exact H. }
  unfold verify_ok. fold (d u).
  destruct Hcase as [Hd|Hd].
  - rewrite Hd, Z.eqb_refl. cbn [negb andb]. rewrite Z.eqb_eq. split.
    + intros <-. split; [lia|auto].
    + intros [_ H]. symmetry. apply H. lia.
  - assert (Hn1 : (d u =? -1) = false) by (apply Z.eqb_neq; lia).
    rewrite Hn1. cbn [negb andb].
    destruct (Z.eqb_spec (pget p u) (-1)) as [Hp|Hp]; cbn [negb andb].
    + assert (Hf : (d u =? pget p u) = false) by (apply Z.eqb_neq; lia).
      rewrite Hf. split; [discriminate|]. intros [H _]. specialize (H Hd).
      destruct (Nat.eq_dec u s) as [->|Hne].
      * destruct H as [H _]. rewrite (H eq_refl) in Hp. lia.
      * destruct H as [_ H]. destruct (H Hne) as (w & E & _). lia.
    + destruct (Nat.eqb_spec u s) as [->|Hne].
      * unfold d in Hd |- *. rewrite Hs0, Z.eqb_refl, andb_true_r, Z.eqb_eq.
        split.
        -- intros E. split; [intros _; split; [auto|intros []; reflexivity]|lia].
        -- intros [H _]. apply H; [lia|reflexivity].
      * rewrite find_parent_spec.
        destruct (existsb (fun v => Z.of_nat v =? pget p u) (neigh g u)) eqn:Ex.
        -- apply existsb_exists in Ex as (w & Hw & Ew). apply Z.eqb_eq in Ew.
           rewrite <- Ew, Nat2Z.id. fold (d w).
           destruct (Z.eqb_spec (d w) (d u - 1)) as [E|E]; split.
           ++ intros _. split; [|lia]. intros _. split; [intros; congruence|].
              intros _. exists w. split; [reflexivity|]. split; [exact Hw|lia].
           ++ intros _; reflexivity.
           ++ discriminate.
           ++ intros [H _]. destruct H as [_ H]; [exact Hd|].
              destruct (H Hne) as (w' & E' & Hw' & Ed).
              apply Nat2Z.inj in E'. subst w'. lia.
        -- split; [discriminate|]. intros [H _]. destruct H as [_ H]; [exact Hd|].
           destruct (H Hne) as (w & E & Hw & _).
           assert (existsb (fun v => Z.of_nat v =? pget p u) (neigh g u) = true)
             by (apply existsb_exists; exists w; split; [exact Hw|apply Z.eqb_eq; auto]).
           congruence.
Qed.

Lemma g_unreach_symmetric : symmetric g_unreach.
Proof.
  intros u v H.
  destruct u as [|[|[|[|u]]]]; simpl in H;
    [| | | |destruct u; simpl in H; destruct H];
    repeat (destruct H as [<-|H]; [simpl; tauto|]); destruct H.
Qed.

(** [BFSVerifier] accepts a parent array exactly when, for every vertex
    [u] with serial-BFS depth [d(u)]: if [u] is reached, the source has
    itself as parent and any other [u] has as parent a vertex [w] found in
    [u]'s own neighbour list with [d(w) + 1 = d(u)]; if [u] is unreached,
    [parent[u] = -1] (on a graph whose neighbour ids are in range and an
    in-range source). *)
Theorem BFSVerifier_accepts_iff (g : Graph) (s : nat) (p : list Z) :
  (forall u v, In v (neigh g u) -> (v < num_nodes g)%nat) ->
  (s < num_nodes g)%nat ->
  (BFSVerifier g s p = true <->
   forall u, (u < num_nodes g)%nat ->
     (0 <= nth u (bfs_depth g s) (-1) ->
        (u = s -> pget p u = Z.of_nat s) /\
        (u <> s -> exists w, pget p u = Z.of_nat w /\ In w (neigh g u) /\
                    nth w (bfs_depth g s) (-1) + 1 = nth u (bfs_depth g s) (-1))) /\
     (nth u (bfs_depth g s) (-1) < 0 -> pget p u = -1)).
Proof.
  intros Hwf Hs. unfold BFSVerifier.
  rewrite verify_vertices_forallb, forallb_forall. split.
  - intros H u Hu. pose proof (verify_ok_iff g s p u Hwf Hs) as E.
    cbv beta zeta in E. apply E. apply H. apply in_seq. lia.
  - intros H u Hu. apply in_seq in Hu.
    pose proof (verify_ok_iff g s p u Hwf Hs) as E.
    cbv beta zeta in E. apply E. apply H. lia.
Qed.

Lemma BFSVerifier_accepts_iff_witness :
  (forall u v, In v (neigh g_unreach u) -> (v < num_nodes g_unreach)%nat) /\
  (0 < num_nodes g_unreach)%nat /\
  (BFSVerifier g_unreach 0 [0; -1; -1; -1] = true <->
   forall u, (u < num_nodes g_unreach)%nat ->
     (0 <= nth u (bfs_depth g_unreach 0) (-1) ->
        (u = 0%nat -> pget [0; -1; -1; -1] u = Z.of_nat 0) /\
        (u <> 0%nat -> exists w, pget [0; -1; -1; -1] u = Z.of_nat w /\
                    In w (neigh g_unreach u) /\
                    nth w (bfs_depth g_unreach 0) (-1) + 1 = nth u (bfs_depth g_unreach 0) (-1))) /\
     (nth u (bfs_depth g_unreach 0) (-1) < 0 -> pget [0; -1; -1; -1] u = -1)).
Proof.
  assert (Hwf : forall u v, In v (neigh g_unreach u) -> (v < num_nodes g_unreach)%nat)
    by (apply symmetric_wf, g_unreach_symmetric).
  assert (Hn : (0 < num_nodes g_unreach)%nat) by (simpl; lia).
  split; [exact Hwf|]. split; [exact Hn|].
  exact (BFSVerifier_accepts_iff g_unreach 0 [0; -1; -1; -1] Hwf Hn).
Defined.

Lemma DOBFS_forest (g : Graph) (source : nat) (alpha beta : Z) (p : list Z) :
  symmetric g -> (source < num_nodes g)%nat -> DOBFS g source alpha beta = Some p ->
  valid_bfs_forest g source p.
Proof.
  intros Hsym Hs E. unfold DOBFS in E.
  apply (dobfs_loop_inv g alpha beta (cinv g source) (valid_bfs_forest g source))
    with (4 := E).
  - intros st st' HI _ Ei. exact (dobfs_iter_level g source Hsym Hs alpha beta st st' HI Ei).
  - intros st HI Hq. exact (cinv_final g source Hsym Hs st HI Hq).
  - exact (dobfs_init_level g source Hsym Hs).
Qed.

(** On a graph with symmetric neighbour lists, an in-range source and
    positive [alpha] and [beta], [BFSVerifier] accepts the parent array
    [DOBFS] returns exactly when every vertex unreachable from the source
    has out-degree at most 1 (only then is its [InitParent] entry [-1]). *)
Theorem BFSVerifier_DOBFS_symmetric (g : Graph) (s : nat) (alpha beta : Z) (p : list Z) :
  symmetric g -> (s < num_nodes g)%nat -> 0 < alpha -> 0 < beta ->
  DOBFS g s alpha beta = Some p ->
  (BFSVerifier g s p = true <->
   forall u, (u < num_nodes g)%nat -> nth u (bfs_depth g s) (-1) < 0 ->
     out_degree g u <= 1).
Proof.
  intros Hsym Hs _ _ E.
  pose proof (symmetric_wf g Hsym) as Hwf.
  pose proof (DOBFS_forest g s alpha beta p Hsym Hs E) as F.
  unfold valid_bfs_forest in F. cbv beta zeta in F. destruct F as (F1 & F2 & F3 & F4).
  assert (Hpt : forall u, (u < num_nodes g)%nat ->
            verify_ok g s p (bfs_depth g s) u = true <->
            (nth u (bfs_depth g s) (-1) < 0 -> out_degree g u <= 1)).
  { intros u Hu. pose proof (verify_ok_iff g s p u Hwf Hs) as Ev.
    cbv beta zeta in Ev. rewrite Ev.
    pose proof (out_degree_nonneg g u) as Hdeg.
    split.
    - intros [_ H] Hd. specialize (H Hd).
      rewrite (F4 u Hu Hd), (pget_InitParent g u Hu) in H.
      destruct (Z.eqb_spec (out_degree g u) 0); simpl in H; lia.
    - intros H. split.
      + intros Hd. split; [intros ->; exact F1|].
        intros Hne. destruct (F3 u Hu Hne Hd) as (w & Ew & Hin & Ed).
        exists w. split; [exact Ew|]. split; [apply Hsym; exact Hin|lia].
      + intros Hd. rewrite (F4 u Hu Hd), (pget_InitParent g u Hu).
        specialize (H Hd).
        destruct (Z.eqb_spec (out_degree g u) 0); simpl; lia. }
  unfold BFSVerifier. rewrite verify_vertices_forallb, forallb_forall. split.
  - intros H u Hu. apply Hpt; [exact Hu|]. apply H. apply in_seq. lia.
  - intros H u Hu. apply in_seq in Hu. apply Hpt; [lia|]. apply H. lia.
Qed.

Lemma BFSVerifier_DOBFS_symmetric_witness :
  symmetric g_unreach /\ (0 < num_nodes g_unreach)%nat /\ 0 < 15 /\ 0 < 18 /\
  DOBFS g_unreach 0 15 18 = Some [0; -2; -1; -1] /\
  (BFSVerifier g_unreach 0 [0; -2; -1; -1] = true <->
   forall u, (u < num_nodes g_unreach)%nat -> nth u (bfs_depth g_unreach 0) (-1) < 0 ->
     out_degree g_unreach u <= 1).
Proof.
  assert (Hn : (0 < num_nodes g_unreach)%nat) by (simpl; lia).
  assert (Ha : 0 < 15) by lia.
  assert (Hb : 0 < 18) by lia.
  assert (E : DOBFS g_unreach 0 15 18 = Some [0; -2; -1; -1]) by (vm_compute; reflexivity).
  split; [exact g_unreach_symmetric|]. split; [exact Hn|]. split; [exact Ha|].
  split; [exact Hb|]. split; [exact E|].
  exact (BFSVerifier_DOBFS_symmetric g_unreach 0 15 18 _ g_unreach_symmetric Hn Ha Hb E).
Defined.

(** ** PrintBFSStats *)

Lemma PrintBFSStats_fold (g : Graph) (t : list Z) (us : list nat) (ts ne : Z) :
  fold_left
    (fun acc n =>
       let '(tree_size, n_edges) := acc in
       if 0 <=? pget t n
       then (tree_size + 1, n_edges + out_degree g n)
       else (tree_size, n_edges)) us (ts, ne) =
  (ts + Z.of_nat (length (filter (fun u => 0 <=? pget t u) us)),
   ne + sumZ (map (out_degree g) (filter (fun u => 0 <=? pget t u) us))).
Proof.
  revert ts ne. induction us as [|u us IH]; intros ts ne; simpl.
  - f_equal; lia.
  - destruct (0 <=? pget t u); rewrite IH; simpl; f_equal; lia.
Qed.

Lemma PrintBFSStats_eq (g : Graph) (t : list Z) :
  PrintBFSStats g t =
  (Z.of_nat (length (filter (fun u => 0 <=? pget t u) (seq 0 (num_nodes g)))),
   sumZ (map (out_degree g) (filter (fun u => 0 <=? pget t u) (seq 0 (num_nodes g))))).
Proof. unfold PrintBFSStats. rewrite PrintBFSStats_fold. f_equal; lia. Qed.

Lemma num_edges_directed_sum (g : Graph) :
  num_edges_directed g = sumZ (map (out_degree g) (seq 0 (num_nodes g))).
Proof.
  induction g as [|l g IH]; simpl; auto.
  unfold out_degree at 1; simpl. f_equal.
  rewrite IH, <- seq_shift, map_map. reflexivity.
Qed.

Lemma sumZ_nonneg (f : nat -> Z) (l : list nat) :
  (forall x, 0 <= f x) -> 0 <= sumZ (map f l).
Proof.
  intros Hf. induction l as [|x l IH]; simpl; [lia|]. pose proof (Hf x); lia.
Qed.

(** On a graph with symmetric neighbour lists, an in-range source and
    positive [alpha] and [beta], [PrintBFSStats] of the array [DOBFS]
    returns reports as [tree_size] the number of vertices the serial BFS
    reaches from the source and as [n_edges] the sum of their
    out-degrees. *)
Theorem PrintBFSStats_DOBFS_symmetric (g : Graph) (s : nat) (alpha beta : Z) (p : list Z) :
  symmetric g -> (s < num_nodes g)%nat -> 0 < alpha -> 0 < beta ->
  DOBFS g s alpha beta = Some p ->
  PrintBFSStats g p =
  (Z.of_nat (length (filter (fun u => 0 <=? nth u (bfs_depth g s) (-1)) (seq 0 (num_nodes g)))),
   sumZ (map (out_degree g) (filter (fun u => 0 <=? nth u (bfs_depth g s) (-1))
                                    (seq 0 (num_nodes g))))).
Proof.
  intros Hsym Hs _ _ E.
  pose proof (DOBFS_forest g s alpha beta p Hsym Hs E) as F.
  unfold valid_bfs_forest in F. cbv beta zeta in F. destruct F as (_ & F2 & _ & F4).
  rewrite PrintBFSStats_eq.
  assert (Hf : filter (fun u => 0 <=? pget p u) (seq 0 (num_nodes g)) =
               filter (fun u => 0 <=? nth u (bfs_depth g s) (-1)) (seq 0 (num_nodes g))).
  { apply filter_ext_in. intros u Hu. apply in_seq in Hu.
    destruct (Z.leb_spec 0 (nth u (bfs_depth g s) (-1))) as [Hd|Hd].
    - apply Z.leb_le. apply F2; [lia|exact Hd].
    - apply Z.leb_gt. rewrite (F4 u ltac:(lia) Hd). apply InitParent_neg. lia. }
  rewrite Hf. reflexivity.
Qed.

Lemma PrintBFSStats_DOBFS_symmetric_witness :
  symmetric g_unreach /\ (0 < num_nodes g_unreach)%nat /\ 0 < 15 /\ 0 < 18 /\
  DOBFS g_unreach 0 15 18 = Some [0; -2; -1; -1] /\
  PrintBFSStats g_unreach [0; -2; -1; -1] =
  (Z.of_nat (length (filter (fun u => 0 <=? nth u (bfs_depth g_unreach 0) (-1))
                            (seq 0 (num_nodes g_unreach)))),
   sumZ (map (out_degree g_unreach) (filter (fun u => 0 <=? nth u (bfs_depth g_unreach 0) (-1))
                                    (seq 0 (num_nodes g_unreach))))).
Proof.
  assert (Hn : (0 < num_nodes g_unreach)%nat) by (simpl; lia).
  assert (Ha : 0 < 15) by lia.
  assert (Hb : 0 < 18) by lia.
  assert (E : DOBFS g_unreach 0 15 18 = Some [0; -2; -1; -1]) by (vm_compute; reflexivity).
  split; [exact g_unreach_symmetric|]. split; [exact Hn|]. split; [exact Ha|].
  split; [exact Hb|]. split; [exact E|].
  exact (PrintBFSStats_DOBFS_symmetric g_unreach 0 15 18 _ g_unreach_symmetric Hn Ha Hb E).
Defined.

(** ** Frontier conversions *)

Lemma get_bit_repeat_false (n x : nat) : get_bit (repeat false n) x = false.
Proof.
  unfold get_bit. destruct (Nat.lt_ge_cases x n).
  - apply nth_repeat_lt; auto.
  - apply nth_overflow. rewrite repeat_length. lia.
Qed.

Lemma StronglySorted_seq (a n : nat) : StronglySorted lt (seq a n).
Proof.
  revert a. induction n as [|n IH]; intros a; simpl; constructor; auto.
  apply Forall_forall. intros x Hx. apply in_seq in Hx. lia.
Qed.

Lemma StronglySorted_filter (f : nat -> bool) (l : list nat) :
  StronglySorted lt l -> StronglySorted lt (filter f l).
Proof.
  induction l as [|x l IH]; intros H; simpl; [constructor|].
  apply StronglySorted_inv in H as [H1 H2].
  destruct (f x); auto. constructor; auto.
  apply Forall_forall. intros y Hy. apply filter_In in Hy as [Hy _].
  rewrite Forall_forall in H2. auto.
Qed.

(** Converting a bitmap of length [num_nodes] to a queue with
    [BitmapToQueue] and back with [QueueToBitmap] into a cleared bitmap
    gives the original bitmap. *)
Theorem BitmapToQueue_QueueToBitmap (g : Graph) (bm : list bool) :
  length bm = num_nodes g ->
  QueueToBitmap (BitmapToQueue g bm) (repeat false (num_nodes g)) = bm.
Proof.
  intros Hl. apply nth_ext with (d := false) (d' := false).
  - rewrite length_QueueToBitmap, repeat_length. auto.
  - intros x Hx. rewrite length_QueueToBitmap, repeat_length in Hx.
    change (get_bit (QueueToBitmap (BitmapToQueue g bm) (repeat false (num_nodes g))) x =
            get_bit bm x).
    apply eq_iff_eq_true. rewrite get_bit_QueueToBitmap, In_BitmapToQueue,
      get_bit_repeat_false, repeat_length.
    split; [intros [[_ [_ H]]|H]; [exact H|discriminate]|].
    intros H. left. auto.
Qed.

Lemma BitmapToQueue_QueueToBitmap_witness :
  length [true; false; true; true] = num_nodes g_path_undirected /\
  QueueToBitmap (BitmapToQueue g_path_undirected [true; false; true; true])
    (repeat false (num_nodes g_path_undirected)) = [true; false; true; true].
Proof.
  assert (H : length [true; false; true; true] = num_nodes g_path_undirected) by reflexivity.
  split; [exact H|]. exact (BitmapToQueue_QueueToBitmap g_path_undirected _ H).
Defined.

Lemma StronglySorted_lt_NoDup (l : list nat) : StronglySorted lt l -> NoDup l.
Proof.
  induction 1 as [|a l _ IH Hf]; constructor; auto.
  rewrite Forall_forall in Hf. intros Ha. specialize (Hf a Ha). lia.
Qed.

(** Converting a queue of in-range vertices with [QueueToBitmap] into a
    cleared bitmap and back with [BitmapToQueue] gives a queue holding
    exactly the vertices of the original queue, each of them once:
    duplicates are dropped. *)
Theorem QueueToBitmap_BitmapToQueue_members (g : Graph) (q : list nat) :
  (forall x, In x q -> (x < num_nodes g)%nat) ->
  let q' := BitmapToQueue g (QueueToBitmap q (repeat false (num_nodes g))) in
  NoDup q' /\ (forall x, In x q' <-> In x q).
Proof.
  intros Hq q'. split.
  - apply StronglySorted_lt_NoDup, StronglySorted_filter, StronglySorted_seq.
  - intros x. unfold q'. rewrite In_BitmapToQueue, get_bit_QueueToBitmap,
      get_bit_repeat_false, repeat_length.
    split; [intros [_ [[_ H]|H]]; [exact H|discriminate]|].
    intros H. pose proof (Hq x H). split; auto.
Qed.

Lemma QueueToBitmap_BitmapToQueue_members_witness :
  (forall x, In x [3; 1; 3]%nat -> (x < num_nodes g_path_undirected)%nat) /\
  let q' := BitmapToQueue g_path_undirected
              (QueueToBitmap [3; 1; 3]%nat (repeat false (num_nodes g_path_undirected))) in
  NoDup q' /\ (forall x, In x q' <-> In x [3; 1; 3]%nat).
Proof.
  assert (H : forall x, In x [3; 1; 3]%nat -> (x < num_nodes g_path_undirected)%nat).
  { intros x Hx. simpl in Hx. simpl. lia. }
  split; [exact H|]. exact (QueueToBitmap_BitmapToQueue_members g_path_undirected _ H).
Defined.

(** ** Edge cases of DOBFS *)

Lemma num_edges_directed_nonneg (g : Graph) : 0 <= num_edges_directed g.
Proof. rewrite num_edges_directed_sum. apply sumZ_nonneg, out_degree_nonneg. Qed.

(** A source with an empty neighbour list: [scout_count] starts at 0, so
    the controller (for positive [alpha]) takes one top-down step, which
    claims nothing, and [DOBFS] returns the [InitParent] array with
    [parent[source] = source] only. *)
Theorem DOBFS_isolated_source (g : Graph) (s : nat) (alpha beta : Z) :
  (s < num_nodes g)%nat -> neigh g s = [] -> 0 < alpha ->
  DOBFS g s alpha beta = Some (set_nth s (InitParent g) (Z.of_nat s)).
Proof.
  intros _ Hn Ha. unfold DOBFS, dobfs_init.
  remember (set_nth s (InitParent g) (Z.of_nat s)) as p0.
  cbn [dobfs_loop queue]. unfold dobfs_iter. cbn [edges_to_check scout_count parent queue].
  assert (Hd : out_degree g s = 0) by (unfold out_degree; rewrite Hn; reflexivity).
  rewrite Hd.
  assert (Hq : 0 <= num_edges_directed g ÷ alpha)
    by (apply Z.quot_pos; [apply num_edges_directed_nonneg|lia]).
  assert (Hlt : (num_edges_directed g ÷ alpha <? 0) = false) by (apply Z.ltb_ge; lia).
  rewrite Hlt. unfold TDStep. cbn [td_queue]. rewrite Hn. cbn [td_neigh td_queue].
  reflexivity.
Qed.

Lemma DOBFS_isolated_source_witness :
  (0 < num_nodes g_unreach)%nat /\ neigh g_unreach 0 = [] /\ 0 < 15 /\
  DOBFS g_unreach 0 15 18 = Some (set_nth 0 (InitParent g_unreach) (Z.of_nat 0)).
Proof.
  assert (Hn : neigh g_unreach 0 = []) by reflexivity.
  assert (Ha : 0 < 15) by lia.
  assert (Hs : (0 < num_nodes g_unreach)%nat) by (simpl; lia).
  split; [exact Hs|]. split; [exact Hn|]. split; [exact Ha|].
  exact (DOBFS_isolated_source g_unreach 0 15 18 Hs Hn Ha).
Defined.

(** Vertices joined to [s] by a path that may use each edge in either
    direction (the weakly connected component of [s]). *)
Inductive weak_reach (g : Graph) (s : nat) : nat -> Prop :=
| wr_source : weak_reach g s s
| wr_fwd u v : weak_reach g s u -> In v (neigh g u) -> weak_reach g s v
| wr_bwd u v : weak_reach g s u -> In u (neigh g v) -> weak_reach g s v.

Definition visited_reach (g : Graph) (s : nat) (p : list Z) : Prop :=
  forall u, (u < num_nodes g)%nat -> 0 <= pget p u -> weak_reach g s u.

Lemma claims_reach (P : nat -> Z -> Prop) (g : Graph) (s : nat) (p p' : list Z) (L : list nat) :
  claims P p p' L -> (forall x y, P x y -> weak_reach g s x) ->
  visited_reach g s p -> visited_reach g s p'.
Proof.
  intros (_ & _ & HL & Hu & HP) HPr Hv u Hn Hp.
  destruct (in_dec Nat.eq_dec u L) as [Hin|Hin].
  - exact (HPr _ _ (HP u Hin)).
  - rewrite (Hu u Hin) in Hp. auto.
Qed.

Lemma TDStep_reach (g : Graph) (s : nat) (p : list Z) (q : list nat) :
  list_visited (num_nodes g) p q -> visited_reach g s p ->
  let '(p', q', _) := TDStep g p q in visited_reach g s p'.
Proof.
  intros Hq Hv. pose proof (TDStep_spec g p q) as H.
  destruct (TDStep g p q) as [[p' q'] sc]. destruct H as (C & _).
  apply (claims_reach _ g s p p' q' C); auto.
  intros x y (w & Hw & _ & Hx). destruct (Hq w Hw) as [Hwn Hwp].
  apply (wr_fwd g s w x); auto.
Qed.

Lemma BUStep_reach (g : Graph) (s : nat) (p : list Z) (front next : list bool) :
  (num_nodes g <= length next)%nat ->
  bitmap_visited (num_nodes g) p front -> visited_reach g s p ->
  let '(p', _, _) := BUStep g p front next in visited_reach g s p'.
Proof.
  intros Hn Hf Hv. pose proof (BUStep_claims g p front next Hn) as H.
  destruct (BUStep g p front next) as [[p' next'] aw]. destruct H as (C & _).
  apply (claims_reach _ g s p p' _ C); auto.
  intros x y (v & Hfv & _).
  apply find_front_some in Hfv as (pre & post & Hx & _ & Hb).
  destruct (Hf v Hb) as [Hvn Hvp].
  apply (wr_bwd g s v x); auto. rewrite Hx. apply in_or_app. right. left. reflexivity.
Qed.

Lemma dobfs_iter_reach (g : Graph) (s : nat) (alpha beta : Z) (st st' : bfs_state) :
  ctrl_ok g s st -> visited_reach g s (parent st) ->
  dobfs_iter g alpha beta st = Some st' -> visited_reach g s (parent st').
Proof.
  intros (Hs & Hc & Hq & Hf) Hv E. pose proof Hs as (Hp & Hfl & Hcl).
  unfold dobfs_iter in E.
  destruct (edges_to_check st ÷ alpha <? scout_count st).
  - destruct (bu_loop (S (num_nodes g)) g beta (parent st)
                (QueueToBitmap (queue st) (front st)) (curr st)
                (Z.of_nat (length (queue st)))) as [[[[p' f'] c'] aw']|] eqn:Eb;
      [|discriminate].
    injection E as <-.
    set (I := fun (p : list Z) (f c : list bool) => length p = num_nodes g /\ length f = num_nodes g /\
                 length c = num_nodes g /\ parent_closed (num_nodes g) s p /\
                 bitmap_visited (num_nodes g) p f /\ visited_reach g s p).
    assert (HI : I p' f' c').
    { refine (bu_loop_inv g beta I _ _ _ _ _ _ _ _ _ _ _ Eb).
      - intros p f c (L1 & L2 & L3 & C & B & R).
        pose proof (BUStep_closed g s p f c L1 ltac:(lia) C B) as H.
        pose proof (BUStep_claims g p f c ltac:(lia)) as H2.
        pose proof (BUStep_reach g s p f c ltac:(lia) B R) as H3.
        destruct (BUStep g p f c) as [[p1 n1] a1].
        destruct H as (_ & C1 & B1 & _). destruct H2 as ((Hl1 & _) & _ & Hn1).
        unfold I. refine (conj _ (conj _ (conj _ (conj C1 (conj B1 H3))))); lia.
      - unfold I. refine (conj Hp (conj _ (conj Hcl (conj Hc (conj _ Hv))))).
        + rewrite length_QueueToBitmap; auto.
        + apply QueueToBitmap_visited; auto. }
    destruct HI as (_ & _ & _ & _ & _ & R). exact R.
  - pose proof (TDStep_reach g s (parent st) (queue st) Hq Hv) as H.
    destruct (TDStep g (parent st) (queue st)) as [[p' q'] sc].
    injection E as <-. exact H.
Qed.

(** [DOBFS] never leaves the weakly connected component of the source: both
    steps only write [parent[x]] along an edge from or to a vertex already
    visited, so every vertex with a non-negative entry in the result is
    joined to the source by edges taken in either direction.  Vertices
    outside that component keep their negative [InitParent] entry. *)
Theorem DOBFS_weak_component (g : Graph) (s : nat) (alpha beta : Z) (p : list Z) (u : nat) :
  (s < num_nodes g)%nat -> DOBFS g s alpha beta = Some p ->
  (u < num_nodes g)%nat -> 0 <= pget p u -> weak_reach g s u.
Proof.
  intros Hs E Hu Hp. unfold DOBFS in E.
  revert u Hu Hp.
  apply (dobfs_loop_inv g alpha beta (fun st => ctrl_ok g s st /\ visited_reach g s (parent st))
           (visited_reach g s)) with (4 := E).
  - intros st st' (Hok & Hv) _ Ei. split.
    + eapply dobfs_iter_ok; eauto.
    + eapply dobfs_iter_reach; eauto.
  - intros st (_ & Hv) _. exact Hv.
  - split; [apply dobfs_init_ok; auto|].
    intros u Hu Hp. unfold dobfs_init in Hp. cbn [parent] in Hp.
    rewrite pget_set_nth in Hp.
    destruct (Nat.eq_dec s u) as [<-|Hne]; [constructor|].
    apply Nat.eqb_neq in Hne. rewrite Hne in Hp.
    pose proof (InitParent_neg g u Hu). lia.
Qed.

Lemma DOBFS_weak_component_witness :
  (0 < num_nodes g_back)%nat /\ DOBFS g_back 0 15 18 = Some [0; -1; 0] /\
  (2 < num_nodes g_back)%nat /\ 0 <= pget [0; -1; 0] 2 /\ weak_reach g_back 0 2.
Proof.
  assert (H1 : (0 < num_nodes g_back)%nat) by (simpl; lia).
  assert (H2 : DOBFS g_back 0 15 18 = Some [0; -1; 0]) by reflexivity.
  assert (H3 : (2 < num_nodes g_back)%nat) by (apply Nat.ltb_lt; reflexivity).
  assert (H4 : 0 <= pget [0; -1; 0] 2) by (vm_compute; discriminate).
  refine (conj H1 (conj H2 (conj H3 (conj H4 _)))).
  exact (DOBFS_weak_component g_back 0 15 18 [0; -1; 0] 2 H1 H2 H3 H4).
Defined.
